(** * Indexed thread-safe store (client-go/tools/cache/thread_safe_store.go)

    A shallow embedding of [storeIndex] (the index engine) and of
    [threadSafeMap] (the table that owns the items and delegates to the
    engine), followed by the properties of the store contract.

    Conventions of the embedding.
    - A Go [map[string]T] is a [gmap string T]; reading a missing key gives
      Go's zero value, written out with [default].
    - [sets.String] is a [gset string].  A nil set and an empty set read the
      same (Len, List, range), so a set handed back to a reader is a
      [gset string]; the nil tests the writers make ([set == nil] on a
      bucket, [index == nil] on an index) are tests on the presence of the
      entry in the enclosing map.
    - Go maps are references that the code updates in place.  The engine
      reaches an index only through [i.indices[name]], so an in-place update
      of an index is the update of that entry.
    - A value of Go type [any] is [option V]: [None] is [nil].
    - [range] over a map visits the entries in an order Go leaves open.
      The model visits them in the order of [map_to_list] (of [elements]
      for a set); where the order could matter, the results are proved for
      every order.
    - The lock is taken for the whole of each method; the model is the
      sequential behaviour under that lock.
    - [panic] leaves the method without a result: methods that can panic
      return an [outcome]. *)

From stdpp Require Import ssreflect gmap strings list fin_maps sorting.

Set Default Proof Using "Type".
#[local] Set Warnings "-rewrite-rw,-clear-no-such-hyp".

(** ** Errors and panics *)

(** The error values of the package, named as in the error taxonomy; the
    payload is what the format string prints. *)
Inductive error : Type :=
  | IndexNotFound (indexName : string)
      (* "Index with name %s does not exist" *)
  | IndexerConflict (names : gset string)
      (* "indexer conflict: %v" *)
  | IndexerRegistrationOnNonEmptyStore
      (* "cannot add indexers to running index" *)
  | IndexFuncError (msg : string).
      (* an error made by an index function *)

(** The value [updateIndices] panics with:
    "unable to calculate an index entry for key %q on index %q: %v". *)
Inductive panic_value : Type :=
  | IndexEntryPanic (key name : string) (err : error).

Inductive outcome (A : Type) : Type :=
  | Returned (a : A)
  | Panicked (p : panic_value).
Arguments Returned {A} a.
Arguments Panicked {A} p.

Definition obind {A B} (m : outcome A) (k : A → outcome B) : outcome B :=
  match m with
  | Returned a => k a
  | Panicked p => Panicked p
  end.

Notation "x ←! m ; k" := (obind m (λ x, k))
  (at level 20, m at level 100, k at level 200, right associativity,
   format "x  ←!  m ;  '/' k").

(** ** [sets.String] *)

Abbreviation sets_String := (gset string) (only parsing).

Definition string_le (a b : string) : Prop := String.leb a b.

Global Instance string_le_dec a b : Decision (string_le a b) :=
  Is_true_dec (String.leb a b).

(** [sets.String.List]: the members, sorted. *)
Definition List_of (s : sets_String) : list string :=
  merge_sort string_le (elements s).

(** [sets.StringKeySet]: the keys of a map. *)
Definition StringKeySet {A} (m : gmap string A) : sets_String := dom m.

(** [sets.String.HasAny]: some item is a member. *)
Definition HasAny (s : sets_String) (its : list string) : bool :=
  existsb (λ item, bool_decide (item ∈ s)) its.

(** [sets.String.Intersection]. *)
Definition Intersection (s1 s2 : sets_String) : sets_String := s1 ∩ s2.

(** ** Types of the index engine *)

Section Store.
Context {V : Type}.

(** A value of type [any]; [None] is [nil]. *)
Abbreviation any := (option V) (only parsing).

(** Modelled from the spec: the declarations of [IndexFunc], [Index],
    [Indexers] and [Indices] are not in the sources at hand.  An index
    function maps an object to an ordered sequence of index-value strings or
    fails; in Go it returns the pair ([]string, error).  [Index] maps an
    index value to a set of keys, [Indexers] a name to an index function,
    [Indices] a name to an [Index]. *)
Definition IndexFunc : Type := option V → list string * option error.
Abbreviation Index := (gmap string (gset string)) (only parsing).
Abbreviation Indexers := (gmap string IndexFunc) (only parsing).
Abbreviation Indices := (gmap string (gmap string (gset string))) (only parsing).

Record storeIndex : Type := StoreIndex {
  indexers : Indexers;
  indices : Indices;
}.

(** ** The index engine *)

Definition reset (i : storeIndex) : storeIndex :=
  {| indexers := indexers i; indices := ∅ |}.

(** [index[indexValue]] read from an index that may be nil. *)
Definition bucket (index : Index) (indexValue : string) : sets_String :=
  default ∅ (index !! indexValue).

(** [i.indices[indexName]] read as a value: a missing index reads as nil,
    and a nil map reads as empty. *)
Definition index_of (ixs : Indices) (indexName : string) : Index :=
  default ∅ (ixs !! indexName).

Definition getKeysFromIndex (indexName : string) (obj : any) (i : storeIndex)
  : sets_String * option error :=
  match indexers i !! indexName with
  | None => (∅, Some (IndexNotFound indexName))
  | Some indexFunc =>
    match indexFunc obj with
    | (_, Some err) => (∅, Some err)
    | (indexedValues, None) =>
      let index := index_of (indices i) indexName in
      match indexedValues with
      | [indexedValue] => (bucket index indexedValue, None)
      | _ =>
        (foldl (λ storeKeySet indexValue, storeKeySet ∪ bucket index indexValue)
               ∅ indexedValues, None)
      end
    end
  end.

Definition getKeysByIndex (indexName indexedValue : string) (i : storeIndex)
  : sets_String * option error :=
  match indexers i !! indexName with
  | None => (∅, Some (IndexNotFound indexName))
  | Some _ =>
    let index := index_of (indices i) indexName in
    (bucket index indexedValue, None)
  end.

Definition getIndexValues (indexName : string) (i : storeIndex) : list string :=
  (map_to_list (index_of (indices i) indexName)).*1.

Definition addIndexers (newIndexers : Indexers) (i : storeIndex)
  : option error * storeIndex :=
  let oldKeys := StringKeySet (indexers i) in
  let newKeys := StringKeySet newIndexers in
  if HasAny oldKeys (List_of newKeys) then
    (Some (IndexerConflict (Intersection oldKeys newKeys)), i)
  else
    (None,
     {| indexers := foldl (λ m kv, <[kv.1 := kv.2]> m) (indexers i)
                          (map_to_list newIndexers);
        indices := indices i |}).

Definition addKeyToIndex (key indexValue : string) (index : Index) : Index :=
  match index !! indexValue with
  | None => <[indexValue := {[key]} ∪ ∅]> index
  | Some set => <[indexValue := {[key]} ∪ set]> index
  end.

Definition deleteKeyFromIndex (key indexValue : string) (index : Index) : Index :=
  match index !! indexValue with
  | None => index
  | Some set =>
    let set := set ∖ {[key]} in
    if decide (size set = 0) then delete indexValue index
    else <[indexValue := set]> index
  end.

(** The variables [updateIndices] declares before its loop and carries from
    one iteration to the next. *)
Record locals : Type := Locals {
  oldIndexValues : list string;
  indexValues : list string;
  err : option error;
}.

(** The test of the fast path:
    [len(indexValues) == 1 && len(oldIndexValues) == 1 &&
     indexValues[0] == oldIndexValues[0]]. *)
Definition same_single_value (indexValues oldIndexValues : list string) : bool :=
  match indexValues, oldIndexValues with
  | [v], [ov] => bool_decide (v = ov)
  | _, _ => false
  end.

(** One iteration of the loop of [updateIndices], for the entry
    [name, indexFunc] of [i.indexers]. *)
Definition updateIndices_body (oldObj newObj : any) (key : string)
    (name : string) (indexFunc : IndexFunc) (s : locals * Indices)
  : outcome (locals * Indices) :=
  let '(lv, ixs) := s in
  let '(oldIndexValues, err) :=
    match oldObj with
    | Some _ => indexFunc oldObj
    | None => (take 0 (oldIndexValues lv), err lv)
    end in
  match err with
  | Some e => Panicked (IndexEntryPanic key name e)
  | None =>
    let '(indexValues, err) :=
      match newObj with
      | Some _ => indexFunc newObj
      | None => (take 0 (indexValues lv), err)
      end in
    match err with
    | Some e => Panicked (IndexEntryPanic key name e)
    | None =>
      let lv := Locals oldIndexValues indexValues err in
      let '(index, ixs) :=
        match ixs !! name with
        | Some index => (index, ixs)
        | None => (∅, <[name := ∅]> ixs)
        end in
      if same_single_value indexValues oldIndexValues then Returned (lv, ixs)
      else
        let index :=
          foldl (λ index value, deleteKeyFromIndex key value index)
                index oldIndexValues in
        let index :=
          foldl (λ index value, addKeyToIndex key value index)
                index indexValues in
        Returned (lv, <[name := index]> ixs)
    end
  end.

Fixpoint updateIndices_loop (oldObj newObj : any) (key : string)
    (entries : list (string * IndexFunc)) (s : locals * Indices)
  : outcome (locals * Indices) :=
  match entries with
  | [] => Returned s
  | (name, indexFunc) :: entries =>
    s ←! updateIndices_body oldObj newObj key name indexFunc s;
    updateIndices_loop oldObj newObj key entries s
  end.

(** [range i.indexers] visits the entries in an order Go leaves open; the
    model visits them in the order of [map_to_list], and
    [updateIndices_loop_order] shows that the order does not matter. *)
Definition updateIndices (oldObj newObj : any) (key : string) (i : storeIndex)
  : outcome storeIndex :=
  s ←! updateIndices_loop oldObj newObj key (map_to_list (indexers i))
         (Locals [] [] None, indices i);
  Returned {| indexers := indexers i; indices := s.2 |}.

(** ** The table *)

Record threadSafeMap : Type := ThreadSafeMap {
  items : gmap string (option V);
  index : storeIndex;
}.

(** [c.items[key]] read as a value: nil when the key is missing. *)
Definition item_of (its : gmap string (option V)) (key : string) : any :=
  default None (its !! key).

Definition Update (key : string) (obj : any) (c : threadSafeMap)
  : outcome threadSafeMap :=
  let oldObject := item_of (items c) key in
  let its := <[key := obj]> (items c) in
  i ←! updateIndices oldObject obj key (index c);
  Returned {| items := its; index := i |}.

Definition Add (key : string) (obj : any) (c : threadSafeMap)
  : outcome threadSafeMap :=
  Update key obj c.

Definition Delete (key : string) (c : threadSafeMap) : outcome threadSafeMap :=
  match items c !! key with
  | Some obj =>
    i ←! updateIndices obj None key (index c);
    Returned {| items := delete key (items c); index := i |}
  | None => Returned c
  end.

Definition Get (key : string) (c : threadSafeMap) : any * bool :=
  (item_of (items c) key, bool_decide (is_Some (items c !! key))).

Definition List (c : threadSafeMap) : list any :=
  (map_to_list (items c)).*2.

Definition ListKeys (c : threadSafeMap) : list string :=
  (map_to_list (items c)).*1.

Fixpoint Replace_loop (entries : list (string * option V)) (i : storeIndex)
  : outcome storeIndex :=
  match entries with
  | [] => Returned i
  | (key, item) :: entries =>
    i ←! updateIndices None item key i;
    Replace_loop entries i
  end.

Definition Replace (its : gmap string (option V)) (resourceVersion : string)
    (c : threadSafeMap) : outcome threadSafeMap :=
  i ←! Replace_loop (map_to_list its) (reset (index c));
  Returned {| items := its; index := i |}.


Definition ByIndex (indexName indexedValue : string) (c : threadSafeMap)
  : list any * option error :=
  match getKeysByIndex indexName indexedValue (index c) with
  | (_, Some err) => ([], Some err)
  | (set, None) => ((λ key, item_of (items c) key) <$> elements set, None)
  end.

Definition IndexKeys (indexName indexedValue : string) (c : threadSafeMap)
  : list string * option error :=
  match getKeysByIndex indexName indexedValue (index c) with
  | (_, Some err) => ([], Some err)
  | (set, None) => (List_of set, None)
  end.

Definition ListIndexFuncValues (indexName : string) (c : threadSafeMap)
  : list string :=
  getIndexValues indexName (index c).

Definition GetIndexers (c : threadSafeMap) : Indexers := indexers (index c).

Definition AddIndexers (newIndexers : Indexers) (c : threadSafeMap)
  : option error * threadSafeMap :=
  if decide (0 < size (items c)) then
    (Some IndexerRegistrationOnNonEmptyStore, c)
  else
    let '(e, i) := addIndexers newIndexers (index c) in
    (e, {| items := items c; index := i |}).

Definition Resync (c : threadSafeMap) : option error := None.

Definition NewThreadSafeStore (ixrs : Indexers) (ixs : Indices) : threadSafeMap :=
  {| items := ∅; index := {| indexers := ixrs; indices := ixs |} |}.

End Store.

(** ** What one call of [updateIndices] computes *)

Section Reconcile.
Context {V : Type}.
Implicit Types (f indexFunc : @IndexFunc V) (o oldObj newObj obj : option V).
Implicit Types (index : gmap string (gset string)).
Implicit Types (ixs : gmap string (gmap string (gset string))).
Implicit Types (key name value : string).

(** The index values [updateIndices] works with for an object: those the
    index function returns, and none for nil, on which the function is not
    called. *)
Definition values_of f o : list string :=
  match o with
  | Some _ => (f o).1
  | None => []
  end.

(** The error [updateIndices] gets for an object, if any. *)
Definition err_of f o : option error :=
  match o with
  | Some _ => (f o).2
  | None => None
  end.

(** The update of one index, once both sequences of values are known. *)
Definition reconcile_index key (oldVals newVals : list string) index
  : gmap string (gset string) :=
  if same_single_value newVals oldVals then index
  else
    foldl (λ index value, addKeyToIndex key value index)
          (foldl (λ index value, deleteKeyFromIndex key value index)
                 index oldVals)
          newVals.

(** The first entry, in the order of the visit, whose index function fails
    on the old or on the new object. *)
Fixpoint first_failure oldObj newObj (entries : list (string * @IndexFunc V))
  : option (string * error) :=
  match entries with
  | [] => None
  | (name, f) :: entries =>
    match err_of f oldObj with
    | Some e => Some (name, e)
    | None =>
      match err_of f newObj with
      | Some e => Some (name, e)
      | None => first_failure oldObj newObj entries
      end
    end
  end.

(** The indices after a visit of [entries] in which no function fails. *)
Definition reconciled oldObj newObj key (entries : list (string * @IndexFunc V)) ixs
  : gmap string (gmap string (gset string)) :=
  foldl (λ ixs e,
           <[e.1 := reconcile_index key (values_of e.2 oldObj)
                      (values_of e.2 newObj) (index_of ixs e.1)]> ixs)
        ixs entries.

(** No bucket of the index is empty. *)
Definition no_empty_bucket index : Prop :=
  ∀ value set, index !! value = Some set → set ≠ ∅.

End Reconcile.

(** ** Sequences of operations on the table *)

Section Operations.
Context {V : Type}.

Inductive op : Type :=
  | OpAdd (key : string) (obj : option V)
  | OpUpdate (key : string) (obj : option V)
  | OpDelete (key : string)
  | OpReplace (its : gmap string (option V)) (resourceVersion : string)
  | OpAddIndexers (newIndexers : gmap string (@IndexFunc V)).

(** One call; the error [AddIndexers] returns is dropped, the table it
    leaves is kept. *)
Definition exec (o : op) (c : @threadSafeMap V) : outcome (@threadSafeMap V) :=
  match o with
  | OpAdd key obj => Add key obj c
  | OpUpdate key obj => Update key obj c
  | OpDelete key => Delete key c
  | OpReplace its resourceVersion => Replace its resourceVersion c
  | OpAddIndexers newIndexers => Returned (AddIndexers newIndexers c).2
  end.

Fixpoint run (ops : list op) (c : @threadSafeMap V) : outcome (@threadSafeMap V) :=
  match ops with
  | [] => Returned c
  | o :: ops => c ←! exec o c; run ops c
  end.

Definition is_add_update_delete (o : op) : Prop :=
  match o with
  | OpAdd _ _ | OpUpdate _ _ | OpDelete _ => True
  | _ => False
  end.

Definition is_add_update_delete_replace (o : op) : Prop :=
  match o with
  | OpAddIndexers _ => False
  | _ => True
  end.

(** The tables a store that starts empty can be in. *)
Definition reachable (c : @threadSafeMap V) : Prop :=
  ∃ ixrs ops, run ops (NewThreadSafeStore ixrs ∅) = Returned c.

(** The tables a store can be in, whatever indexers and indices it was
    made with. *)
Definition constructed (c : @threadSafeMap V) : Prop :=
  ∃ ixrs ixs ops, run ops (NewThreadSafeStore ixrs ixs) = Returned c.

(** A table that holds an item has an index under every registered name. *)
Definition indexed (c : @threadSafeMap V) : Prop :=
  items c ≠ ∅ →
  ∀ name, is_Some (indexers (index c) !! name) →
          is_Some (indices (index c) !! name).

(** [key] is in the bucket of [value] in the index [name]. *)
Definition in_bucket (c : @threadSafeMap V) (name value key : string) : Prop :=
  key ∈ bucket (index_of (indices (index c)) name) value.

(** Every key of the table is in the buckets of the values its index
    functions give when applied to the stored object, nil included, and in
    no other bucket. *)
Definition indexed_by_applying (c : @threadSafeMap V) : Prop :=
  ∀ key obj, items c !! key = Some obj →
    (∀ name f, indexers (index c) !! name = Some f →
       ∀ value, in_bucket c name value key ↔ value ∈ (f obj).1) ∧
    (∀ name, indexers (index c) !! name = None →
       ∀ value, ¬ in_bucket c name value key).

(** The same with the values [updateIndices] works with: those of the index
    function for an object that is not nil, none for nil. *)
Definition indexed_by_values (c : @threadSafeMap V) : Prop :=
  ∀ key obj, items c !! key = Some obj →
    (∀ name f, indexers (index c) !! name = Some f →
       ∀ value, in_bucket c name value key ↔ value ∈ values_of f obj) ∧
    (∀ name, indexers (index c) !! name = None →
       ∀ value, ¬ in_bucket c name value key).

(** What every reachable table satisfies. *)
Record consistent (c : @threadSafeMap V) : Prop := Consistent {
  cons_registered : ∀ name,
    is_Some (indices (index c) !! name) → is_Some (indexers (index c) !! name);
  cons_member : ∀ name f value key,
    indexers (index c) !! name = Some f →
    in_bucket c name value key ↔
    ∃ obj, items c !! key = Some obj ∧ value ∈ values_of f obj;
  cons_no_empty : ∀ name ix,
    indices (index c) !! name = Some ix → no_empty_bucket ix;
  cons_no_err : ∀ key obj name f,
    items c !! key = Some obj → indexers (index c) !! name = Some f →
    err_of f obj = None;
  cons_indexed : ∀ name,
    items c ≠ ∅ → is_Some (indexers (index c) !! name) →
    is_Some (indices (index c) !! name);
}.

(** Adding the entries one by one, in the order of the list. *)
Definition add_all (entries : list (string * option V)) (c : @threadSafeMap V)
  : outcome (@threadSafeMap V) :=
  run ((λ e, OpAdd e.1 e.2) <$> entries) c.

End Operations.

(** ** A store of strings, for the examples *)

Module Ex.
Open Scope string_scope.

(** The index function of the tests: an object is its own index value. *)
Definition byValue : @IndexFunc string :=
  λ obj, match obj with
         | Some s => ([s], None)
         | None => ([], Some (IndexFuncError "nil object"))
         end.

(** An index function that gives the same value whatever the object. *)
Definition constant : @IndexFunc string := λ _, (["testIndex"], None).

(** An index function that fails on the object "bad". *)
Definition picky : @IndexFunc string :=
  λ obj, match obj with
         | Some s => if bool_decide (s = "bad")
                     then ([], Some (IndexFuncError "bad object"))
                     else ([s], None)
         | None => ([], None)
         end.

(** The index function of the scenarios: the first character of the
    object. *)
Definition byFirstChar : @IndexFunc string :=
  λ obj, match obj with
         | Some (String a _) => ([String a EmptyString], None)
         | _ => ([], Some (IndexFuncError "no first character"))
         end.

Definition store_chars : @threadSafeMap string :=
  NewThreadSafeStore {[ "byFirstChar" := byFirstChar ]} ∅.

(** [strings.Split(s, ",")]; the comma is the character 44. *)
Fixpoint split_commas (s : string) : list string :=
  match s with
  | EmptyString => [EmptyString]
  | String a s' =>
    if Ascii.eqb a (Ascii.ascii_of_nat 44) then EmptyString :: split_commas s'
    else match split_commas s' with
         | [] => [String a EmptyString]
         | w :: ws => String a w :: ws
         end
  end.

(** The index function of the test with several values. *)
Definition byFields : @IndexFunc string :=
  λ obj, match obj with
         | Some s => (split_commas s, None)
         | None => ([], Some (IndexFuncError "nil object"))
         end.

Definition store_fields : @threadSafeMap string :=
  NewThreadSafeStore {[ "testIndexer" := byFields ]} ∅.

(** The sorted keys of a bucket of "testIndexer", as the tests read them. *)
Definition keys_under (value : string) (c : @threadSafeMap string) : list string :=
  List_of (bucket (index_of (indices (index c)) "testIndexer") value).

Definition store0 : @threadSafeMap string :=
  NewThreadSafeStore {[ "testIndexer" := byValue ]} ∅.

Definition store_constant : @threadSafeMap string :=
  NewThreadSafeStore {[ "testIndexer" := constant ]} ∅.

Definition engine0 : @storeIndex string :=
  {| indexers := {[ "testIndexer" := byValue ]}; indices := ∅ |}.

Definition engine_picky : @storeIndex string :=
  {| indexers := {[ "testIndexer" := picky ]}; indices := ∅ |}.

(** Two keys are added, one moves to the value of the other, and the first
    is deleted. *)
Definition ops1 : list (@op string) :=
  [ OpAdd "key1" (Some "foo"); OpAdd "key2" (Some "bar");
    OpUpdate "key2" (Some "foo"); OpDelete "key1" ].

Definition store1 : @threadSafeMap string :=
  {| items := {[ "key2" := Some "foo" ]};
     index := {| indexers := {[ "testIndexer" := byValue ]};
                 indices := {[ "testIndexer" := {[ "foo" := {[ "key2" ]} ]} ]} |} |}.

(** [store1] after [Update "key2" nil]. *)
Definition store1_nil : @threadSafeMap string :=
  {| items := {[ "key2" := None ]};
     index := {| indexers := {[ "testIndexer" := byValue ]};
                 indices := {[ "testIndexer" := ∅ ]} |} |}.

(** [store_constant] after [Add "key" nil]. *)
Definition store_constant_nil : @threadSafeMap string :=
  {| items := {[ "key" := None ]};
     index := {| indexers := {[ "testIndexer" := constant ]};
                 indices := {[ "testIndexer" := ∅ ]} |} |}.

Definition items2 : gmap string (option string) :=
  {[ "key1" := Some "bar"; "key3" := Some "bar" ]}.

(** [store1] after [Replace items2]. *)
Definition store2 : @threadSafeMap string :=
  {| items := items2;
     index := {| indexers := {[ "testIndexer" := byValue ]};
                 indices :=
                   {[ "testIndexer" := {[ "bar" := {[ "key1"; "key3" ]} ]} ]} |} |}.

(** An add, a replace that drops what was added, and the delete of what the
    replace brought. *)
Definition ops3 : list (@op string) :=
  [ OpAdd "key1" (Some "foo"); OpReplace {[ "key2" := Some "bar" ]} "1";
    OpDelete "key2" ].

(** [store1] after [Add "key1" "bar"]. *)
Definition store1_bar : @threadSafeMap string :=
  {| items := {[ "key1" := Some "bar"; "key2" := Some "foo" ]};
     index := {| indexers := {[ "testIndexer" := byValue ]};
                 indices := {[ "testIndexer" :=
                                 {[ "bar" := {[ "key1" ]};
                                    "foo" := {[ "key2" ]} ]} ]} |} |}.

(** An engine with two index functions and one indexed key. *)
Definition engine2 : @storeIndex string :=
  {| indexers := {[ "byConstant" := constant; "testIndexer" := byValue ]};
     indices := {[ "byConstant" := {[ "testIndex" := {[ "key2" ]} ]};
                   "testIndexer" := {[ "foo" := {[ "key2" ]} ]} ]} |}.

Definition store3 : @threadSafeMap string :=
  {| items := ∅;
     index := {| indexers := {[ "testIndexer" := byValue ]};
                 indices := {[ "testIndexer" := ∅ ]} |} |}.

End Ex.

(** * Properties *)

(** ** Buckets under [addKeyToIndex] and [deleteKeyFromIndex] *)

Section BucketLemmas.
Implicit Types (index : gmap string (gset string)).
Implicit Types (key value : string).

Lemma bucket_empty value : bucket (∅ : gmap string (gset string)) value = ∅.
Proof. unfold bucket. by rewrite lookup_empty. Qed.

Lemma bucket_addKeyToIndex key value index value' :
  bucket (addKeyToIndex key value index) value' =
  if decide (value = value') then {[key]} ∪ bucket index value
  else bucket index value'.
Proof.
  unfold addKeyToIndex, bucket.
  destruct (index !! value) as [set|] eqn:E; case_decide as Hv; subst;
    rewrite ?lookup_insert_eq ?E; simpl; try done;
    by rewrite lookup_insert_ne.
Qed.

Lemma bucket_deleteKeyFromIndex key value index value' :
  bucket (deleteKeyFromIndex key value index) value' =
  if decide (value = value') then bucket index value ∖ {[key]}
  else bucket index value'.
Proof.
  unfold deleteKeyFromIndex, bucket.
  destruct (index !! value) as [set|] eqn:E; simpl.
  - destruct (decide (size (set ∖ {[key]}) = 0)) as [Hz|Hz];
      case_decide as Hv; subst.
    + rewrite lookup_delete_eq ?E. simpl.
      apply size_empty_inv in Hz. by unfold_leibniz.
    + by rewrite lookup_delete_ne.
    + by rewrite lookup_insert_eq ?E.
    + by rewrite lookup_insert_ne.
  - destruct (decide (value = value')); subst; rewrite ?E; simpl;
      [set_solver | done].
Qed.

Lemma no_empty_bucket_empty : no_empty_bucket ∅.
Proof. intros value set. by rewrite lookup_empty. Qed.

Lemma no_empty_bucket_add key value index :
  no_empty_bucket index → no_empty_bucket (addKeyToIndex key value index).
Proof.
  intros Hne value' set'. unfold addKeyToIndex.
  destruct (index !! value) as [set|] eqn:E;
    (destruct (decide (value = value')) as [->|Hv];
     [ rewrite lookup_insert_eq; intros [= <-]; set_solver
     | rewrite lookup_insert_ne //; apply Hne ]).
Qed.

Lemma no_empty_bucket_delete key value index :
  no_empty_bucket index → no_empty_bucket (deleteKeyFromIndex key value index).
Proof.
  intros Hne value' set'. unfold deleteKeyFromIndex.
  destruct (index !! value) as [set|] eqn:E; [|apply Hne]. simpl.
  destruct (decide (size (set ∖ {[key]}) = 0)) as [Hz|Hz].
  - destruct (decide (value = value')) as [->|Hv].
    + by rewrite lookup_delete_eq.
    + rewrite lookup_delete_ne //. apply Hne.
  - destruct (decide (value = value')) as [->|Hv].
    + rewrite lookup_insert_eq. intros [= <-] Hempty.
      apply Hz. rewrite Hempty. apply size_empty.
    + rewrite lookup_insert_ne //. apply Hne.
Qed.

Lemma bucket_foldl_delete key (values : list string) index value' :
  bucket (foldl (λ index value, deleteKeyFromIndex key value index)
                index values) value' =
  if decide (value' ∈ values) then bucket index value' ∖ {[key]}
  else bucket index value'.
Proof.
  revert index. induction values as [|value values IH]; intros index.
  - done.
  - cbn [foldl]. rewrite IH bucket_deleteKeyFromIndex.
    repeat case_decide; subst; set_solver.
Qed.

Lemma bucket_foldl_add key (values : list string) index value' :
  bucket (foldl (λ index value, addKeyToIndex key value index)
                index values) value' =
  if decide (value' ∈ values) then {[key]} ∪ bucket index value'
  else bucket index value'.
Proof.
  revert index. induction values as [|value values IH]; intros index.
  - done.
  - cbn [foldl]. rewrite IH bucket_addKeyToIndex.
    repeat case_decide; subst; set_solver.
Qed.

Lemma no_empty_bucket_foldl_delete key (values : list string) index :
  no_empty_bucket index →
  no_empty_bucket (foldl (λ index value, deleteKeyFromIndex key value index)
                         index values).
Proof.
  revert index. induction values as [|value values IH]; intros index H;
    simpl; [done|]. by apply IH, no_empty_bucket_delete.
Qed.

Lemma no_empty_bucket_foldl_add key (values : list string) index :
  no_empty_bucket index →
  no_empty_bucket (foldl (λ index value, addKeyToIndex key value index)
                         index values).
Proof.
  revert index. induction values as [|value values IH]; intros index H;
    simpl; [done|]. by apply IH, no_empty_bucket_add.
Qed.

Lemma same_single_value_true (newVals oldVals : list string) :
  same_single_value newVals oldVals = true ↔
  ∃ value, newVals = [value] ∧ oldVals = [value].
Proof.
  unfold same_single_value. split.
  - destruct newVals as [|v [|]], oldVals as [|ov [|]]; try done.
    intros ->%bool_decide_eq_true. eauto.
  - intros (value & -> & ->). by apply bool_decide_eq_true.
Qed.

(** The members of a bucket after the update of one index. *)
Lemma elem_of_bucket_reconcile_index key oldVals newVals index value key' :
  same_single_value newVals oldVals = false →
  key' ∈ bucket (reconcile_index key oldVals newVals index) value ↔
  (key' = key ∧ value ∈ newVals) ∨
  (key' ∈ bucket index value ∧ ¬ (key' = key ∧ value ∈ oldVals)).
Proof.
  intros Hslow. unfold reconcile_index. rewrite Hslow.
  rewrite bucket_foldl_add bucket_foldl_delete.
  repeat case_decide; set_solver.
Qed.

Lemma no_empty_bucket_reconcile_index key oldVals newVals index :
  no_empty_bucket index →
  no_empty_bucket (reconcile_index key oldVals newVals index).
Proof.
  intros H. unfold reconcile_index.
  destruct (same_single_value newVals oldVals); [done|].
  by apply no_empty_bucket_foldl_add, no_empty_bucket_foldl_delete.
Qed.

End BucketLemmas.

(** ** The loop of [updateIndices] *)

Section ReconcileLemmas.
Context {V : Type}.
Implicit Types (f : @IndexFunc V) (oldObj newObj obj : option V).
Implicit Types (ixs : gmap string (gmap string (gset string))).
Implicit Types (entries : list (string * @IndexFunc V)).
Implicit Types (key name value : string) (lv : locals).

Lemma index_of_insert ixs name ix name' :
  index_of (<[name := ix]> ixs) name' =
  if decide (name = name') then ix else index_of ixs name'.
Proof.
  unfold index_of. case_decide; subst.
  - by rewrite lookup_insert_eq.
  - by rewrite lookup_insert_ne.
Qed.

(** One iteration, entered with [err] nil: it panics on the first error, and
    otherwise leaves [err] nil and the updated index under [name]. *)
Lemma updateIndices_body_eq oldObj newObj key name f lv ixs :
  err lv = None →
  updateIndices_body oldObj newObj key name f (lv, ixs) =
  match err_of f oldObj with
  | Some e => Panicked (IndexEntryPanic key name e)
  | None =>
    match err_of f newObj with
    | Some e => Panicked (IndexEntryPanic key name e)
    | None =>
      Returned (Locals (values_of f oldObj) (values_of f newObj) None,
                <[name := reconcile_index key (values_of f oldObj)
                            (values_of f newObj) (index_of ixs name)]> ixs)
    end
  end.
Proof.
  intros Herr.
  unfold updateIndices_body, err_of, values_of, reconcile_index, index_of.
  rewrite Herr !take_0.
  destruct oldObj as [old|], newObj as [new|];
    repeat match goal with
           | |- context [f ?x] => destruct (f x) as [? [?|]]
           end; simpl; try done;
    destruct (ixs !! name) as [ix|] eqn:E; simpl;
    try destruct (same_single_value _ _); simpl;
    rewrite ?insert_insert_eq; try done; by rewrite insert_id.
Qed.

Lemma updateIndices_loop_eq oldObj newObj key entries lv ixs :
  err lv = None →
  match first_failure oldObj newObj entries with
  | Some (name, e) =>
    updateIndices_loop oldObj newObj key entries (lv, ixs) =
    Panicked (IndexEntryPanic key name e)
  | None =>
    ∃ lv', err lv' = None ∧
      updateIndices_loop oldObj newObj key entries (lv, ixs) =
      Returned (lv', reconciled oldObj newObj key entries ixs)
  end.
Proof.
  revert lv ixs. induction entries as [|[name f] entries IH]; intros lv ixs Herr.
  - simpl. eauto.
  - cbn [first_failure updateIndices_loop].
    rewrite updateIndices_body_eq //.
    destruct (err_of f oldObj) as [e|]; [done|].
    destruct (err_of f newObj) as [e|]; [done|].
    cbn [obind]. apply IH. done.
Qed.

Lemma updateIndices_eq oldObj newObj key (i : @storeIndex V) :
  updateIndices oldObj newObj key i =
  match first_failure oldObj newObj (map_to_list (indexers i)) with
  | Some (name, e) => Panicked (IndexEntryPanic key name e)
  | None =>
    Returned {| indexers := indexers i;
                indices := reconciled oldObj newObj key
                             (map_to_list (indexers i)) (indices i) |}
  end.
Proof.
  unfold updateIndices.
  pose proof (updateIndices_loop_eq oldObj newObj key
                (map_to_list (indexers i)) (Locals [] [] None) (indices i)
                eq_refl) as H.
  destruct (first_failure oldObj newObj (map_to_list (indexers i)))
    as [[name e]|].
  - by rewrite H.
  - destruct H as (lv' & _ & ->). done.
Qed.

Lemma first_failure_Some oldObj newObj entries name e :
  first_failure oldObj newObj entries = Some (name, e) →
  ∃ f, (name, f) ∈ entries ∧
       (err_of f oldObj = Some e ∨ err_of f newObj = Some e).
Proof.
  induction entries as [|[name' f] entries IH]; [done|]. simpl.
  destruct (err_of f oldObj) as [e'|] eqn:Eo.
  { intros [= -> ->]. exists f. split; [left|by left]. }
  destruct (err_of f newObj) as [e'|] eqn:En.
  { intros [= -> ->]. exists f. split; [left|by right]. }
  intros (f' & Hin & Hf')%IH. exists f'. split; [by right|done].
Qed.

Lemma first_failure_None oldObj newObj entries :
  first_failure oldObj newObj entries = None ↔
  ∀ name f, (name, f) ∈ entries →
    err_of f oldObj = None ∧ err_of f newObj = None.
Proof.
  induction entries as [|[name' f'] entries IH]; simpl.
  - split; [|done]. by intros _ name f ?%elem_of_nil.
  - split.
    + destruct (err_of f' oldObj) eqn:Eo; [done|].
      destruct (err_of f' newObj) eqn:En; [done|].
      intros H name f [[= -> ->]|Hin]%elem_of_cons; [done|].
      by apply (proj1 IH H name f).
    + intros H. destruct (H name' f') as [-> ->]; [left|].
      apply (proj2 IH). intros name f Hin. apply (H name f). by right.
Qed.

Lemma lookup_reconciled oldObj newObj key entries ixs name :
  NoDup entries.*1 →
  reconciled oldObj newObj key entries ixs !! name =
  match (list_to_map entries : gmap string IndexFunc) !! name with
  | Some f =>
    Some (reconcile_index key (values_of f oldObj) (values_of f newObj)
            (index_of ixs name))
  | None => ixs !! name
  end.
Proof.
  unfold reconciled. revert ixs.
  induction entries as [|[name' f'] entries IH]; intros ixs Hnd.
  - by rewrite lookup_empty.
  - apply NoDup_cons in Hnd as [Hfresh Hnd]. cbn [foldl fst snd].
    rewrite IH //. cbn [list_to_map foldr]. simpl.
    destruct (decide (name' = name)) as [->|Hne].
    + rewrite lookup_insert_eq.
      rewrite (not_elem_of_list_to_map_1 entries name) //.
      by rewrite lookup_insert_eq.
    + rewrite !lookup_insert_ne // index_of_insert decide_False //.
Qed.

(** The indices after [updateIndices], name by name. *)
Lemma lookup_updateIndices oldObj newObj key (i i' : @storeIndex V) name :
  updateIndices oldObj newObj key i = Returned i' →
  indexers i' = indexers i ∧
  indices i' !! name =
  match indexers i !! name with
  | Some f =>
    Some (reconcile_index key (values_of f oldObj) (values_of f newObj)
            (index_of (indices i) name))
  | None => indices i !! name
  end.
Proof.
  rewrite updateIndices_eq.
  destruct (first_failure _ _ _) as [[n e]|]; [done|].
  intros [= <-]. split; [done|]. simpl.
  rewrite lookup_reconciled; [|apply NoDup_fst_map_to_list].
  by rewrite list_to_map_to_list.
Qed.

(** [updateIndices] returns exactly when no index function fails on the old
    or on the new object. *)
Lemma updateIndices_Returned_iff oldObj newObj key (i : @storeIndex V) :
  (∃ i', updateIndices oldObj newObj key i = Returned i') ↔
  ∀ name f, indexers i !! name = Some f →
    err_of f oldObj = None ∧ err_of f newObj = None.
Proof.
  rewrite updateIndices_eq.
  destruct (first_failure _ _ _) as [[n e]|] eqn:E.
  - split; [by intros [? ?]|]. intros H.
    apply first_failure_Some in E as (f & Hin%elem_of_map_to_list & Hf).
    destruct (H n f Hin) as [Ho Hn]. rewrite Ho Hn in Hf. by destruct Hf.
  - split; [|eauto]. intros _ name f Hin.
    eapply first_failure_None; [done|]. by apply elem_of_map_to_list.
Qed.

(** The order in which the entries of [i.indexers] are visited changes
    neither whether the loop panics nor the indices it leaves. *)
Lemma updateIndices_loop_order oldObj newObj key entries entries' lv ixs :
  err lv = None → NoDup entries.*1 → entries ≡ₚ entries' →
  match updateIndices_loop oldObj newObj key entries (lv, ixs),
        updateIndices_loop oldObj newObj key entries' (lv, ixs) with
  | Returned s, Returned s' => s.2 = s'.2
  | Panicked _, Panicked _ => True
  | _, _ => False
  end.
Proof.
  intros Herr Hnd Hperm.
  assert (NoDup entries'.*1) as Hnd' by by rewrite -Hperm.
  pose proof (updateIndices_loop_eq oldObj newObj key entries lv ixs Herr) as H.
  pose proof (updateIndices_loop_eq oldObj newObj key entries' lv ixs Herr) as H'.
  destruct (first_failure oldObj newObj entries) as [[n e]|] eqn:E;
    destruct (first_failure oldObj newObj entries') as [[n' e']|] eqn:E'.
  - by rewrite H H'.
  - apply first_failure_Some in E as (f & Hin & Hf).
    rewrite Hperm in Hin.
    destruct (proj1 (first_failure_None _ _ _) E' n f Hin) as [Ho Hn].
    rewrite Ho Hn in Hf. by destruct Hf.
  - apply first_failure_Some in E' as (f & Hin & Hf).
    rewrite -Hperm in Hin.
    destruct (proj1 (first_failure_None _ _ _) E n' f Hin) as [Ho Hn].
    rewrite Ho Hn in Hf. by destruct Hf.
  - destruct H as (lv1 & _ & ->), H' as (lv2 & _ & ->). simpl.
    apply map_eq. intros name. rewrite !lookup_reconciled //.
    by rewrite (list_to_map_proper entries entries').
Qed.

End ReconcileLemmas.

(** ** The consistency of the table and its indices *)

Section Consistency.
Context {V : Type}.
Implicit Types (c : @threadSafeMap V) (i : @storeIndex V).
Implicit Types (f : @IndexFunc V) (oldObj newObj obj : option V).
Implicit Types (key name value : string).

Lemma item_of_Some its key (v : V) :
  item_of its key = Some v → its !! key = Some (Some v).
Proof.
  unfold item_of. destruct (its !! key) as [o|]; simpl; [|done].
  by intros ->.
Qed.

Lemma item_of_lookup its key obj :
  its !! key = Some obj → item_of its key = obj.
Proof. unfold item_of. by intros ->. Qed.

Lemma item_of_None its key :
  its !! key = None → item_of its key = (None : option V).
Proof. unfold item_of. by intros ->. Qed.

Lemma values_of_cons_inv f obj value values :
  values_of f obj = value :: values → ∃ v, obj = Some v.
Proof. destruct obj; [eauto|done]. Qed.

Lemma consistent_new (ixrs : gmap string (@IndexFunc V)) :
  consistent (NewThreadSafeStore ixrs ∅).
Proof.
  split; simpl.
  - intros name. rewrite lookup_empty. by intros [? ?].
  - intros name f value key _. unfold in_bucket, index_of, bucket. simpl.
    rewrite !lookup_empty. simpl. rewrite ?lookup_empty. simpl.
    split; [set_solver|]. intros (obj & Hobj & _).
    done.
  - intros name ix. by rewrite lookup_empty.
  - intros key obj name f. by rewrite lookup_empty.
  - done.
Qed.

(** One reconcile, with the items changed at [key] only, keeps the table
    consistent: the step shared by [Update] and [Delete]. *)
Lemma consistent_reconcile c key oldObj newObj i' its' :
  consistent c →
  updateIndices oldObj newObj key (index c) = Returned i' →
  oldObj = item_of (items c) key →
  (∀ key', key' ≠ key → its' !! key' = items c !! key') →
  its' !! key = Some newObj ∨ (its' !! key = None ∧ newObj = None) →
  consistent {| items := its'; index := i' |}.
Proof.
  intros [Hreg Hmem Hne Herr Hixd] Hupd Hold Hother Hkey.
  assert (indexers i' = indexers (index c)) as Hixrs
    by apply (lookup_updateIndices _ _ _ _ _ key Hupd).
  assert (∀ name, indices i' !! name =
    match indexers (index c) !! name with
    | Some f =>
      Some (reconcile_index key (values_of f oldObj) (values_of f newObj)
              (index_of (indices (index c)) name))
    | None => indices (index c) !! name
    end) as Hlook
    by (intros name; apply (lookup_updateIndices _ _ _ _ _ name Hupd)).
  assert (∀ name f, indexers (index c) !! name = Some f →
            err_of f oldObj = None ∧ err_of f newObj = None) as Hok
    by (apply (updateIndices_Returned_iff oldObj newObj key (index c)); eauto).
  assert (∀ obj, items c !! key = Some obj → obj = oldObj) as Hstored
    by (intros obj Hobj; rewrite Hold; symmetry; by apply item_of_lookup).
  split; simpl; rewrite ?Hixrs.
  - intros name. rewrite Hlook.
    destruct (indexers (index c) !! name) eqn:E; [eauto|]. rewrite -E. apply Hreg.
  - intros name f value key' Hf.
    pose proof (Hmem name f value key' Hf) as Hm.
    unfold in_bucket in *. simpl in *.
    assert (index_of (indices i') name =
            reconcile_index key (values_of f oldObj) (values_of f newObj)
              (index_of (indices (index c)) name)) as ->
      by (unfold index_of at 1; by rewrite Hlook Hf).
    destruct (same_single_value (values_of f newObj) (values_of f oldObj))
      eqn:Efast.
    + unfold reconcile_index. rewrite Efast Hm.
      destruct (decide (key' = key)) as [->|Hk]; [|by rewrite Hother].
      apply same_single_value_true in Efast as (v0 & Hnew & Hov).
      destruct (values_of_cons_inv _ _ _ _ Hnew) as [vn ->].
      destruct (values_of_cons_inv _ _ _ _ Hov) as [vo Heq].
      destruct Hkey as [Hkey|[_ ?]]; [|done].
      rewrite Heq in Hold. symmetry in Hold. apply item_of_Some in Hold.
      rewrite Hold Hkey. rewrite -Heq.
      split; intros (obj & [= <-] & Hin); eexists; (split; [done|]);
        by rewrite ?Hnew ?Hov in Hin |- *.
    + rewrite elem_of_bucket_reconcile_index // Hm.
      destruct (decide (key' = key)) as [->|Hk].
      * split.
        -- intros [[_ Hin]|[(obj & Hobj & Hin) Hnot]].
           ++ destruct Hkey as [Hkey|[_ ->]]; [eauto|].
              by apply elem_of_nil in Hin.
           ++ exfalso. apply Hnot. split; [done|].
              by rewrite -(Hstored _ Hobj).
        -- intros (obj & Hobj & Hin). left. split; [done|].
           destruct Hkey as [Hkey|[Hkey _]]; [|by rewrite Hkey in Hobj].
           rewrite Hkey in Hobj. by injection Hobj as <-.
      * rewrite Hother //. split; [|intros H; right; split; [done|]].
        -- by intros [[? _]|[? _]].
        -- by intros [? _].
  - intros name ix. rewrite Hlook.
    destruct (indexers (index c) !! name) as [f|] eqn:E; [|apply Hne].
    intros [= <-]. apply no_empty_bucket_reconcile_index.
    unfold index_of. destruct (indices (index c) !! name) as [ix0|] eqn:E0.
    + by apply (Hne name).
    + apply no_empty_bucket_empty.
  - intros key' obj name f Hobj Hf.
    destruct (decide (key' = key)) as [->|Hk].
    + destruct Hkey as [Hkey|[Hkey _]]; [|by rewrite Hkey in Hobj].
      rewrite Hkey in Hobj. injection Hobj as <-. by apply (Hok name f).
    + rewrite Hother // in Hobj. by apply (Herr key' obj name f).
  - intros name _ [f Hf]. rewrite Hlook Hf. eauto.
Qed.

Lemma Update_Returned key obj c c' :
  Update key obj c = Returned c' →
  items c' = <[key := obj]> (items c) ∧
  updateIndices (item_of (items c) key) obj key (index c) = Returned (index c').
Proof.
  unfold Update.
  destruct (updateIndices _ _ _ _) as [i'|p]; [|done].
  by intros [= <-].
Qed.

Lemma consistent_Update key obj c c' :
  consistent c → Update key obj c = Returned c' → consistent c'.
Proof.
  intros Hc [Hits Hupd]%Update_Returned. destruct c' as [its' i'].
  simpl in *. subst its'.
  eapply consistent_reconcile; [done..| |].
  - intros key' Hk. by rewrite lookup_insert_ne.
  - left. by rewrite lookup_insert_eq.
Qed.

Lemma Delete_Returned key c c' :
  Delete key c = Returned c' →
  match items c !! key with
  | Some obj =>
    items c' = delete key (items c) ∧
    updateIndices obj None key (index c) = Returned (index c')
  | None => c' = c
  end.
Proof.
  unfold Delete. destruct (items c !! key) as [obj|]; [|by intros [= <-]].
  destruct (updateIndices _ _ _ _) as [i'|p]; [|done].
  by intros [= <-].
Qed.

Lemma consistent_Delete key c c' :
  consistent c → Delete key c = Returned c' → consistent c'.
Proof.
  intros Hc Hdel%Delete_Returned.
  destruct (items c !! key) as [obj|] eqn:E; [|by subst].
  destruct Hdel as [Hits Hupd]. destruct c' as [its' i'].
  simpl in *. subst its'.
  eapply consistent_reconcile; [done..| | |].
  - symmetry. by apply item_of_lookup.
  - intros key' Hk. by rewrite lookup_delete_ne.
  - right. by rewrite lookup_delete_eq.
Qed.

(** *** [addIndexers] *)

Lemma HasAny_List_of (s1 s2 : gset string) :
  HasAny s1 (List_of s2) = true ↔ ∃ x, x ∈ s1 ∧ x ∈ s2.
Proof.
  unfold HasAny, List_of. rewrite existsb_exists. split.
  - intros (x & Hin%list_elem_of_In & Hx%bool_decide_eq_true).
    exists x. split; [done|].
    rewrite merge_sort_Permutation in Hin. by apply elem_of_elements.
  - intros (x & H1 & H2). exists x. split; [|by apply bool_decide_eq_true].
    apply list_elem_of_In. rewrite merge_sort_Permutation.
    by apply elem_of_elements.
Qed.

Lemma foldl_insert_lookup {A} (entries : list (string * A))
    (m : gmap string A) key :
  NoDup entries.*1 →
  foldl (λ m kv, <[kv.1 := kv.2]> m) m entries !! key =
  match (list_to_map entries : gmap string A) !! key with
  | Some a => Some a
  | None => m !! key
  end.
Proof.
  revert m. induction entries as [|[k a] entries IH]; intros m Hnd.
  - by rewrite lookup_empty.
  - apply NoDup_cons in Hnd as [Hfresh Hnd]. cbn [foldl fst snd].
    rewrite IH //. cbn [list_to_map foldr]. simpl.
    destruct (decide (k = key)) as [->|Hne].
    + rewrite lookup_insert_eq.
      rewrite (not_elem_of_list_to_map_1 entries key) //.
      by rewrite lookup_insert_eq.
    + by rewrite !lookup_insert_ne.
Qed.

Lemma foldl_insert_map_to_list {A} (new m : gmap string A) :
  foldl (λ m kv, <[kv.1 := kv.2]> m) m (map_to_list new) = new ∪ m.
Proof.
  apply map_eq. intros key.
  rewrite foldl_insert_lookup; [|apply NoDup_fst_map_to_list].
  rewrite list_to_map_to_list lookup_union.
  destruct (new !! key), (m !! key); done.
Qed.

Lemma addIndexers_eq (newIndexers : gmap string (@IndexFunc V)) i :
  addIndexers newIndexers i =
  if decide (dom (indexers i) ∩ dom newIndexers = ∅) then
    (None, {| indexers := newIndexers ∪ indexers i; indices := indices i |})
  else
    (Some (IndexerConflict (dom (indexers i) ∩ dom newIndexers)), i).
Proof.
  unfold addIndexers, StringKeySet, Intersection.
  rewrite foldl_insert_map_to_list.
  destruct (HasAny _ _) eqn:E.
  - apply HasAny_List_of in E as (x & H1 & H2).
    rewrite decide_False; [done|set_solver].
  - rewrite decide_True; [done|].
    apply set_eq. intros x. split; [|set_solver].
    intros [H1 H2]%elem_of_intersection. exfalso.
    assert (HasAny (dom (indexers i)) (List_of (dom newIndexers)) = true)
      as Htrue by (apply HasAny_List_of; eauto).
    congruence.
Qed.

Lemma AddIndexers_eq (newIndexers : gmap string (@IndexFunc V)) c :
  AddIndexers newIndexers c =
  if decide (items c = ∅) then
    ((addIndexers newIndexers (index c)).1,
     {| items := items c; index := (addIndexers newIndexers (index c)).2 |})
  else (Some IndexerRegistrationOnNonEmptyStore, c).
Proof.
  unfold AddIndexers. destruct (decide (items c = ∅)) as [H|H].
  - rewrite decide_False; [|rewrite H map_size_empty; lia].
    by destruct (addIndexers newIndexers (index c)).
  - rewrite decide_True; [done|].
    destruct (decide (size (items c) = 0)) as [Hz%map_size_empty_inv|Hz];
      [done|lia].
Qed.

Lemma consistent_AddIndexers (newIndexers : gmap string (@IndexFunc V)) c :
  consistent c → consistent (AddIndexers newIndexers c).2.
Proof.
  intros Hc. unfold AddIndexers.
  destruct (decide (0 < size (items c))) as [Hpos|Hzero]; [done|].
  rewrite addIndexers_eq.
  destruct (decide (dom (indexers (index c)) ∩ dom newIndexers = ∅))
    as [Hdisj|Hconf]; simpl; [|by destruct c].
  assert (items c = ∅) as Hempty by (apply map_size_empty_inv; lia).
  destruct Hc as [Hreg Hmem Hne Herr Hixd].
  split; simpl; rewrite ?Hempty.
  - intros name Hsome. apply Hreg in Hsome as [f Hf].
    rewrite lookup_union Hf. destruct (newIndexers !! name); eauto.
  - intros name f value key Hf. unfold in_bucket. simpl.
    split; [|intros (obj & Hobj & _); by rewrite lookup_empty in Hobj].
    intros Hin. exfalso.
    destruct (indexers (index c) !! name) as [f'|] eqn:E.
    + destruct (proj1 (Hmem name f' value key E) Hin) as (obj & Hobj & _).
      by rewrite Hempty lookup_empty in Hobj.
    + unfold index_of in Hin.
      destruct (indices (index c) !! name) as [ix|] eqn:E'.
      * destruct (Hreg name) as [? ?]; [eauto|congruence].
      * simpl in Hin. by rewrite bucket_empty in Hin.
  - done.
  - intros key obj name f. by rewrite lookup_empty.
  - done.
Qed.

(** *** [Replace] is a run of [Add] on a store with empty indices *)

Lemma Replace_loop_add_all (entries : list (string * option V)) its0 i :
  NoDup entries.*1 →
  (∀ key, key ∈ entries.*1 → its0 !! key = None) →
  add_all entries {| items := its0; index := i |} =
  (i' ←! Replace_loop entries i;
   Returned {| items := foldl (λ m kv, <[kv.1 := kv.2]> m) its0 entries;
               index := i' |}).
Proof.
  unfold add_all. revert its0 i.
  induction entries as [|[key obj] entries IH]; intros its0 i Hnd Hfresh.
  - done.
  - rewrite fmap_cons in Hnd, Hfresh. apply NoDup_cons in Hnd as [Hkey Hnd].
    cbn [fst] in Hkey, Hfresh.
    cbn [fmap list_fmap run exec Replace_loop foldl fst snd].
    unfold Add, Update. cbn [items index].
    rewrite (item_of_None its0 key); [|apply Hfresh; left].
    destruct (updateIndices None obj key i) as [i1|p]; [|done].
    cbn [obind]. apply IH; [done|].
    intros key' Hin.
    rewrite lookup_insert_ne; [apply Hfresh; by right|by intros ->].
Qed.

Lemma Replace_eq_add_all (its : gmap string (option V)) resourceVersion c :
  Replace its resourceVersion c =
  add_all (map_to_list its) (NewThreadSafeStore (indexers (index c)) ∅).
Proof.
  unfold Replace, NewThreadSafeStore.
  rewrite Replace_loop_add_all; [|apply NoDup_fst_map_to_list|done].
  rewrite foldl_insert_map_to_list. by rewrite (right_id_L ∅ (∪)).
Qed.

Lemma consistent_add_all (entries : list (string * option V)) c c' :
  consistent c → add_all entries c = Returned c' → consistent c'.
Proof.
  unfold add_all. revert c.
  induction entries as [|[key obj] entries IH]; intros c Hc; simpl.
  - by intros [= <-].
  - unfold Add. destruct (Update key obj c) as [c1|p] eqn:E; [|done].
    simpl. apply IH. by eapply consistent_Update.
Qed.

Lemma consistent_Replace (its : gmap string (option V)) resourceVersion c c' :
  Replace its resourceVersion c = Returned c' → consistent c'.
Proof.
  rewrite Replace_eq_add_all. apply consistent_add_all, consistent_new.
Qed.

Lemma consistent_exec (o : op) c c' :
  consistent c → exec o c = Returned c' → consistent c'.
Proof.
  intros Hc. destruct o; simpl.
  - by apply consistent_Update.
  - by apply consistent_Update.
  - by apply consistent_Delete.
  - by apply consistent_Replace.
  - intros [= <-]. by apply consistent_AddIndexers.
Qed.

Lemma consistent_run (ops : list op) c c' :
  consistent c → run ops c = Returned c' → consistent c'.
Proof.
  revert c. induction ops as [|o ops IH]; intros c Hc; simpl.
  - by intros [= <-].
  - destruct (exec o c) as [c1|p] eqn:E; [|done]. simpl.
    apply IH. by eapply consistent_exec.
Qed.

Lemma consistent_reachable c : reachable c → consistent c.
Proof.
  intros (ixrs & ops & Hrun).
  eapply consistent_run; [apply consistent_new|done].
Qed.

(** The items and the index functions determine the indices of a consistent
    table that is not empty. *)
Lemma consistent_unique c1 c2 :
  consistent c1 → consistent c2 →
  items c1 = items c2 → indexers (index c1) = indexers (index c2) →
  items c1 ≠ ∅ → c1 = c2.
Proof.
  intros H1 H2 Hits Hixrs Hnonempty.
  destruct c1 as [its1 [ixrs1 ixs1]], c2 as [its2 [ixrs2 ixs2]].
  simpl in *. subst its2 ixrs2. do 2 f_equal.
  apply map_eq. intros name.
  destruct (ixrs1 !! name) as [f|] eqn:Ef.
  - destruct (cons_indexed _ H1 name) as [ix1 E1]; [done|by eauto|].
    destruct (cons_indexed _ H2 name) as [ix2 E2]; [done|by eauto|].
    simpl in *. rewrite E1 E2. f_equal.
    assert (∀ value, bucket ix1 value = bucket ix2 value) as Hb.
    { intros value. apply set_eq. intros key.
      pose proof (cons_member _ H1 name f value key Ef) as M1.
      pose proof (cons_member _ H2 name f value key Ef) as M2.
      unfold in_bucket, index_of in M1, M2. simpl in *.
      rewrite E1 in M1. rewrite E2 in M2. simpl in *.
      by rewrite M1 M2. }
    apply map_eq. intros value. specialize (Hb value). unfold bucket in Hb.
    pose proof (cons_no_empty _ H1 name ix1 E1 value) as N1.
    pose proof (cons_no_empty _ H2 name ix2 E2 value) as N2.
    destruct (ix1 !! value) as [s1|], (ix2 !! value) as [s2|];
      simpl in *; subst; try done.
    + by destruct (N1 ∅).
    + by destruct (N2 ∅).
  - destruct (ixs1 !! name) as [ix1|] eqn:E1.
    { destruct (cons_registered _ H1 name) as [? ?]; simpl in *;
        [by eauto|congruence]. }
    destruct (ixs2 !! name) as [ix2|] eqn:E2; [|done].
    destruct (cons_registered _ H2 name) as [? ?]; simpl in *;
      [by eauto|congruence].
Qed.

Lemma Replace_loop_indexers (entries : list (string * option V)) i i' :
  Replace_loop entries i = Returned i' → indexers i' = indexers i.
Proof.
  revert i. induction entries as [|[key obj] entries IH]; intros i; simpl.
  - by intros [= <-].
  - destruct (updateIndices None obj key i) as [i1|p] eqn:E; [|done]. simpl.
    intros ->%IH. apply (lookup_updateIndices _ _ _ _ _ key E).
Qed.

Lemma Replace_loop_Returned_iff (entries : list (string * option V)) i :
  (∃ i', Replace_loop entries i = Returned i') ↔
  ∀ key obj name f, (key, obj) ∈ entries → indexers i !! name = Some f →
    err_of f obj = None.
Proof.
  revert i. induction entries as [|[key obj] entries IH]; intros i.
  - simpl. split; [|eauto]. by intros _ ???? ?%elem_of_nil.
  - cbn [Replace_loop].
    destruct (updateIndices None obj key i) as [i1|p] eqn:E; cbn [obind].
    + assert (indexers i1 = indexers i) as Hix
        by apply (lookup_updateIndices _ _ _ _ _ key E).
      rewrite IH Hix. split.
      * intros H key' obj' name f [[= -> ->]|Hin]%elem_of_cons Hf.
        -- assert (∃ i', updateIndices None obj key i = Returned i') as Hret
             by eauto.
           by apply (proj1 (updateIndices_Returned_iff _ _ _ _) Hret name f Hf).
        -- by apply (H key' obj' name f).
      * intros H key' obj' name f Hin. apply (H key' obj' name f). by right.
    + split; [by intros [? ?]|]. intros H. exfalso.
      assert (∃ i', updateIndices None obj key i = Returned i') as [i' Hi'].
      { apply updateIndices_Returned_iff. intros name f Hf.
        split; [done|]. apply (H key obj name f); [left|done]. }
      congruence.
Qed.

Lemma Replace_loop_Panicked (entries : list (string * option V)) i p :
  Replace_loop entries i = Panicked p →
  ∃ key obj name f e,
    p = IndexEntryPanic key name e ∧ (key, obj) ∈ entries ∧
    indexers i !! name = Some f ∧ err_of f obj = Some e.
Proof.
  revert i. induction entries as [|[key obj] entries IH]; intros i; [done|].
  cbn [Replace_loop].
  destruct (updateIndices None obj key i) as [i1|p'] eqn:E; cbn [obind].
  - intros (k & o & n & f & e & -> & Hin & Hf & He)%IH.
    exists k, o, n, f, e. split; [done|]. split; [by right|].
    split; [|done]. by rewrite -(proj1 (lookup_updateIndices _ _ _ _ _ n E)).
  - intros [= ->]. rewrite updateIndices_eq in E.
    destruct (first_failure _ _ _) as [[n e]|] eqn:Ef; [|done].
    injection E as <-.
    apply first_failure_Some in Ef as (f & Hin%elem_of_map_to_list & He).
    exists key, obj, n, f, e. split; [done|]. split; [left|].
    split; [done|]. by destruct He.
Qed.

Lemma add_all_fresh (entries : list (string * option V))
    (ixrs : gmap string (@IndexFunc V)) :
  NoDup entries.*1 →
  add_all entries (NewThreadSafeStore ixrs ∅) =
  (i' ←! Replace_loop entries {| indexers := ixrs; indices := ∅ |};
   Returned {| items := list_to_map entries; index := i' |}).
Proof.
  intros Hnd. unfold NewThreadSafeStore.
  rewrite Replace_loop_add_all //.
  assert (foldl (λ m kv, <[kv.1 := kv.2]> m) ∅ entries =
          (list_to_map entries : gmap string (option V))) as ->; [|done].
  apply map_eq. intros key. rewrite foldl_insert_lookup //.
  by destruct (_ !! key).
Qed.

(** Adding the same entries in another order gives the same table. *)
Lemma add_all_order (entries entries' : list (string * option V))
    (ixrs : gmap string (@IndexFunc V)) c :
  NoDup entries.*1 → entries ≡ₚ entries' →
  add_all entries (NewThreadSafeStore ixrs ∅) = Returned c →
  add_all entries' (NewThreadSafeStore ixrs ∅) = Returned c.
Proof.
  intros Hnd Hperm Hrun.
  assert (NoDup entries'.*1) as Hnd' by by rewrite -Hperm.
  destruct entries as [|e entries].
  { apply Permutation_nil_l in Hperm. by subst. }
  pose proof (consistent_add_all _ _ _ (consistent_new ixrs) Hrun) as Hc.
  rewrite add_all_fresh // in Hrun.
  destruct (Replace_loop (e :: entries) _) as [i1|p] eqn:E1; [|done].
  injection Hrun as <-.
  assert (∃ i', Replace_loop entries' {| indexers := ixrs; indices := ∅ |}
                = Returned i') as [i2 E2].
  { apply Replace_loop_Returned_iff. intros key obj name f Hin.
    apply (proj1 (Replace_loop_Returned_iff _ _) (ex_intro _ _ E1)
             key obj name f).
    by rewrite Hperm. }
  assert (add_all entries' (NewThreadSafeStore ixrs ∅) =
          Returned {| items := list_to_map entries'; index := i2 |}) as Hrun'
    by by rewrite add_all_fresh // E2.
  rewrite Hrun'. f_equal. symmetry.
  pose proof (consistent_add_all _ _ _ (consistent_new ixrs) Hrun') as Hc'.
  apply consistent_unique; simpl; try done.
  - exact (list_to_map_proper (M:=gmap string) (e :: entries) entries'
             Hnd Hperm).
  - by rewrite (Replace_loop_indexers _ _ _ E1) (Replace_loop_indexers _ _ _ E2).
  - destruct e as [k o]. simpl. apply insert_non_empty.
Qed.
End Consistency.

(** * The contract of the store *)

Section Contract.
Context {V : Type}.
Implicit Types (c : @threadSafeMap V) (i : @storeIndex V).
Implicit Types (f : @IndexFunc V) (oldObj newObj obj : option V).
Implicit Types (key name value indexName indexedValue : string).

(** C7.  [Delete] of a key that is not in the items returns, and the table it
    leaves is the table it found: the items, the index functions and every
    index are the same. *)
Theorem Delete_absent_noop key c :
  items c !! key = None → Delete key c = Returned c.
Proof. intros H. unfold Delete. by rewrite H. Qed.

(** C6.  [AddIndexers] on a table whose items are not empty returns the
    error "cannot add indexers to running index" and leaves the table as it
    was; on a table with no item it returns what [addIndexers] of the engine
    returns, and leaves the items as they were and the engine as
    [addIndexers] leaves it. *)
Theorem AddIndexers_running_index (newIndexers : gmap string (@IndexFunc V)) c :
  (items c ≠ ∅ →
   AddIndexers newIndexers c = (Some IndexerRegistrationOnNonEmptyStore, c)) ∧
  (items c = ∅ →
   AddIndexers newIndexers c =
   ((addIndexers newIndexers (index c)).1,
    {| items := items c; index := (addIndexers newIndexers (index c)).2 |})).
Proof.
  rewrite AddIndexers_eq. split; intros H.
  - by rewrite decide_False.
  - by rewrite decide_True.
Qed.

(** C5.  [addIndexers] with a name that is already registered returns the
    conflict error that carries exactly the names in both registries, and
    leaves the engine as it was; with no such name it returns no error, the
    registry becomes the union of the new and the old one, and the indices
    stay as they were.  Through [AddIndexers] on a table with no item the
    same holds, and the items stay as they were. *)
Theorem addIndexers_conflict_or_union (newIndexers : gmap string (@IndexFunc V)) :
  (∀ i,
    ((∃ name, is_Some (indexers i !! name) ∧ is_Some (newIndexers !! name)) →
     addIndexers newIndexers i =
     (Some (IndexerConflict (dom (indexers i) ∩ dom newIndexers)), i)) ∧
    ((∀ name, is_Some (newIndexers !! name) → indexers i !! name = None) →
     addIndexers newIndexers i =
     (None, {| indexers := newIndexers ∪ indexers i; indices := indices i |}))) ∧
  (∀ c, items c = ∅ →
    ((∃ name, is_Some (indexers (index c) !! name) ∧
              is_Some (newIndexers !! name)) →
     AddIndexers newIndexers c =
     (Some (IndexerConflict (dom (indexers (index c)) ∩ dom newIndexers)), c)) ∧
    ((∀ name, is_Some (newIndexers !! name) →
              indexers (index c) !! name = None) →
     AddIndexers newIndexers c =
     (None, {| items := items c;
               index := {| indexers := newIndexers ∪ indexers (index c);
                           indices := indices (index c) |} |}))).
Proof.
  assert (∀ i,
    ((∃ name, is_Some (indexers i !! name) ∧ is_Some (newIndexers !! name)) →
     addIndexers newIndexers i =
     (Some (IndexerConflict (dom (indexers i) ∩ dom newIndexers)), i)) ∧
    ((∀ name, is_Some (newIndexers !! name) → indexers i !! name = None) →
     addIndexers newIndexers i =
     (None, {| indexers := newIndexers ∪ indexers i; indices := indices i |})))
    as Hengine.
  { intros i. rewrite addIndexers_eq. split.
    - intros (name & H1%elem_of_dom & H2%elem_of_dom).
      rewrite decide_False; [done|set_solver].
    - intros H. rewrite decide_True; [done|].
      apply set_eq. intros name. split; [|set_solver].
      intros [H1%elem_of_dom H2%elem_of_dom]%elem_of_intersection.
      rewrite (H name H2) in H1. by destruct H1. }
  split; [done|]. intros c Hempty.
  rewrite AddIndexers_eq decide_True //.
  destruct (Hengine (index c)) as [Hconf Hmerge].
  split; intros H.
  - rewrite (Hconf H). by destruct c.
  - by rewrite (Hmerge H).
Qed.

(** C9.  For a registered index name, [getKeysByIndex] returns without error
    the set of keys in the bucket of the value, which is the empty set when
    the index has no bucket for the value; [IndexKeys] returns the keys of
    that set and [ByIndex] the items stored under them.  For a name that is
    not registered all three return the error "Index with name ... does not
    exist", whatever the indices hold. *)
Theorem getKeysByIndex_bucket indexName indexedValue c :
  (is_Some (indexers (index c) !! indexName) →
   (∀ ix set, indices (index c) !! indexName = Some ix →
              ix !! indexedValue = Some set →
      getKeysByIndex indexName indexedValue (index c) = (set, None)) ∧
   ((∀ ix, indices (index c) !! indexName = Some ix →
           ix !! indexedValue = None) →
      getKeysByIndex indexName indexedValue (index c) = (∅, None)) ∧
   (∃ keys, IndexKeys indexName indexedValue c = (keys, None) ∧
            NoDup keys ∧
            ∀ key, key ∈ keys ↔
                   key ∈ (getKeysByIndex indexName indexedValue (index c)).1) ∧
   (∃ objs, ByIndex indexName indexedValue c = (objs, None) ∧
            ∀ obj, obj ∈ objs ↔
                   ∃ key, key ∈ (getKeysByIndex indexName indexedValue
                                   (index c)).1 ∧
                          obj = item_of (items c) key)) ∧
  (indexers (index c) !! indexName = None →
   ∀ ixs its,
     let c' := {| items := its;
                  index := {| indexers := indexers (index c);
                              indices := ixs |} |} in
     getKeysByIndex indexName indexedValue (index c') =
       (∅, Some (IndexNotFound indexName)) ∧
     IndexKeys indexName indexedValue c' = ([], Some (IndexNotFound indexName)) ∧
     ByIndex indexName indexedValue c' = ([], Some (IndexNotFound indexName))).
Proof.
  split.
  - intros [f Hf]. unfold IndexKeys, ByIndex, getKeysByIndex.
    rewrite Hf. cbn [fst]. unfold index_of, bucket. repeat split.
    + intros ix set ->. simpl. by intros ->.
    + intros Hnone. destruct (indices (index c) !! indexName) as [ix|] eqn:E;
        simpl; [by rewrite (Hnone ix)|by rewrite lookup_empty].
    + eexists. split; [done|]. split.
      * unfold List_of. rewrite merge_sort_Permutation. apply NoDup_elements.
      * intros key. unfold List_of.
        by rewrite merge_sort_Permutation elem_of_elements.
    + eexists. split; [done|]. intros obj.
      rewrite list_elem_of_fmap.
      split; intros (key & ? & ?); exists key; split; try done;
        by apply elem_of_elements.
  - intros Hnone ixs its c'. unfold IndexKeys, ByIndex, getKeysByIndex.
    simpl. by rewrite Hnone.
Qed.


Lemma in_bucket_unregistered c name value key :
  consistent c → indexers (index c) !! name = None →
  ¬ in_bucket c name value key.
Proof.
  intros Hc Hnone. unfold in_bucket, index_of.
  destruct (indices (index c) !! name) as [ix|] eqn:E; simpl.
  - destruct (cons_registered _ Hc name) as [? ?]; [eauto|congruence].
  - rewrite bucket_empty. set_solver.
Qed.

Lemma consistent_indexed_by_values c : consistent c → indexed_by_values c.
Proof.
  intros Hc key obj Hobj. split.
  - intros name f Hf value. rewrite (cons_member _ Hc name f value key Hf).
    split; [|eauto]. intros (obj' & Hobj' & Hin). congruence.
  - intros name Hnone value. by apply in_bucket_unregistered.
Qed.

(** C1, as amended.  After a run of add, update and delete calls that all
    return, on a store that started with empty items and indices: a key
    stored with an object that is not nil is, in every registered index, in
    exactly the buckets of the values the index function gives for that
    object; a key stored with nil is in no bucket; and no key is in a bucket
    of an index whose name is not registered. *)
Theorem indices_follow_items (ixrs : gmap string (@IndexFunc V)) (ops : list op) c :
  Forall is_add_update_delete ops →
  run ops (NewThreadSafeStore ixrs ∅) = Returned c →
  indexed_by_values c.
Proof.
  intros _ Hrun. apply consistent_indexed_by_values.
  eapply consistent_run; [apply consistent_new|done].
Qed.

(** C3.  After a run of add, update, delete and replace calls that all
    return, on a store that started with empty items and indices, every
    bucket that exists in an index holds at least one key. *)
Theorem no_empty_bucket_left (ixrs : gmap string (@IndexFunc V)) (ops : list op) c :
  Forall is_add_update_delete_replace ops →
  run ops (NewThreadSafeStore ixrs ∅) = Returned c →
  ∀ name ix value set,
    indices (index c) !! name = Some ix → ix !! value = Some set → set ≠ ∅.
Proof.
  intros _ Hrun name ix value set Hix Hset.
  assert (consistent c) as Hc
    by (eapply consistent_run; [apply consistent_new|done]).
  by apply (cons_no_empty _ Hc name ix Hix value).
Qed.

(** C10.  On a table reached from a store that started with empty items and
    indices, [Update] (and [Add]) of a key with nil returns; afterwards
    [Get] of the key gives nil and true, [ListKeys] has the key, [List] has
    the nil object, and the key is in no bucket of any index. *)
Theorem Update_nil_unindexed key c :
  reachable c →
  ∃ c', Update key None c = Returned c' ∧
        Add key None c = Returned c' ∧
        Get key c' = (None, true) ∧
        key ∈ ListKeys c' ∧
        None ∈ List c' ∧
        ∀ name value, ¬ in_bucket c' name value key.
Proof.
  intros Hc%consistent_reachable.
  assert (∃ i', updateIndices (item_of (items c) key) None key (index c)
                = Returned i') as [i' Hi'].
  { apply updateIndices_Returned_iff. intros name f Hf. split; [|done].
    unfold item_of. destruct (items c !! key) as [obj|] eqn:E; [|done].
    by apply (cons_no_err _ Hc key obj name f). }
  exists {| items := <[key := None]> (items c); index := i' |}.
  assert (Update key None c =
          Returned {| items := <[key := None]> (items c); index := i' |})
    as Hupd by (unfold Update; by rewrite Hi').
  pose proof (consistent_Update _ _ _ _ Hc Hupd) as Hc'.
  assert (<[key := None]> (items c) !! key = Some (None : option V)) as Hkey
    by apply lookup_insert_eq.
  split; [done|]. split; [done|]. split; [|split; [|split]].
  - unfold Get, item_of. simpl. rewrite Hkey. simpl.
    done.
  - unfold ListKeys. simpl. apply list_elem_of_fmap.
    exists (key, None). split; [done|]. by apply elem_of_map_to_list.
  - unfold List. simpl. apply list_elem_of_fmap.
    exists (key, None). split; [done|]. by apply elem_of_map_to_list.
  - intros name value Hin.
    destruct (indexers i' !! name) as [f|] eqn:Ef.
    + destruct (proj1 (cons_member _ Hc' name f value key Ef) Hin)
        as (obj & Hobj & Hv).
      simpl in Hobj. rewrite Hkey in Hobj. injection Hobj as <-.
      by apply elem_of_nil in Hv.
    + by apply (in_bucket_unregistered _ name value key Hc').
Qed.

(** C4.  [updateIndices] panics when a registered index function returns an
    error for the old object or for the new one, each taken when it is not
    nil; the panic value carries the key, the name of a registered index
    and the error its function returned.  When no registered index function
    returns an error, [updateIndices] returns.  A panic of [updateIndices]
    is the outcome of the [Update], [Add] or [Delete] that called it, and
    [Replace] panics in the same way when a registered index function
    returns an error for an object of the new items. *)
Theorem updateIndices_panics_on_error oldObj newObj key i :
  ((∃ name f, indexers i !! name = Some f ∧
              ((is_Some oldObj ∧ is_Some (f oldObj).2) ∨
               (is_Some newObj ∧ is_Some (f newObj).2))) →
   ∃ name f e,
     updateIndices oldObj newObj key i = Panicked (IndexEntryPanic key name e) ∧
     indexers i !! name = Some f ∧
     ((is_Some oldObj ∧ (f oldObj).2 = Some e) ∨
      (is_Some newObj ∧ (f newObj).2 = Some e))) ∧
  ((∀ name f, indexers i !! name = Some f →
              (is_Some oldObj → (f oldObj).2 = None) ∧
              (is_Some newObj → (f newObj).2 = None)) →
   ∃ i', updateIndices oldObj newObj key i = Returned i') ∧
  (∀ c p, index c = i → updateIndices oldObj newObj key i = Panicked p →
     (item_of (items c) key = oldObj →
      Update key newObj c = Panicked p ∧ Add key newObj c = Panicked p) ∧
     (items c !! key = Some oldObj → newObj = None →
      Delete key c = Panicked p)) ∧
  (∀ c its resourceVersion,
     index c = i →
     (∃ key' obj name f, its !! key' = Some obj ∧ indexers i !! name = Some f ∧
                         is_Some obj ∧ is_Some (f obj).2) →
     ∃ key' obj name f e,
       Replace its resourceVersion c = Panicked (IndexEntryPanic key' name e) ∧
       its !! key' = Some obj ∧ indexers i !! name = Some f ∧
       is_Some obj ∧ (f obj).2 = Some e).
Proof.
  assert (∀ f obj e, err_of f obj = Some e ↔ is_Some obj ∧ (f obj).2 = Some e)
    as Herr.
  { intros f [v|] e; simpl.
    - split; [eauto|by intros [_ ?]].
    - split; [done|]. by intros [[? ?] _]. }
  split; [|split; [|split]].
  - intros (name & f & Hf & Hfail). rewrite updateIndices_eq.
    destruct (first_failure _ _ _) as [[name' e]|] eqn:E.
    + apply first_failure_Some in E as (f' & Hin%elem_of_map_to_list & Hf').
      exists name', f', e. rewrite -!Herr. done.
    + exfalso.
      destruct (proj1 (first_failure_None _ _ _) E name f) as [Ho Hn];
        [by apply elem_of_map_to_list|].
      destruct Hfail as [[Hobj [e He]]|[Hobj [e He]]].
      * assert (err_of f oldObj = Some e) by by apply Herr. congruence.
      * assert (err_of f newObj = Some e) by by apply Herr. congruence.
  - intros Hok. apply updateIndices_Returned_iff. intros name f Hf.
    destruct (Hok name f Hf) as [Ho Hn].
    split; [destruct oldObj|destruct newObj]; simpl; eauto.
  - intros c p <- Hpanic. split.
    + intros Hold. unfold Add, Update. by rewrite Hold Hpanic.
    + intros Hkey ->. unfold Delete. by rewrite Hkey Hpanic.
  - intros c its rv <- (key' & obj & name & f & Hobj & Hf & Hsome & [e He]).
    unfold Replace.
    destruct (Replace_loop (map_to_list its) (reset (index c)))
      as [i'|p] eqn:E.
    + exfalso.
      assert (err_of f obj = None) as Hnone.
      { apply (proj1 (Replace_loop_Returned_iff _ _) (ex_intro _ _ E)
                 key' obj name f); [|done].
        by apply elem_of_map_to_list. }
      assert (err_of f obj = Some e) by by apply Herr. congruence.
    + apply Replace_loop_Panicked in E
        as (k & o & n & f' & e' & -> & Hin%elem_of_map_to_list & Hf' & He').
      apply Herr in He' as [Ho He']. exists k, o, n, f', e'. done.
Qed.

(** *** Every registered name has an index once the table holds an item *)

Lemma updateIndices_indexed oldObj newObj key i i' name :
  updateIndices oldObj newObj key i = Returned i' →
  is_Some (indexers i' !! name) → is_Some (indices i' !! name).
Proof.
  intros Hupd. destruct (lookup_updateIndices _ _ _ _ _ name Hupd) as [-> ->].
  intros [f ->]. eauto.
Qed.

Lemma updateIndices_keeps_index oldObj newObj key i i' name :
  updateIndices oldObj newObj key i = Returned i' →
  is_Some (indices i !! name) → is_Some (indices i' !! name).
Proof.
  intros Hupd. destruct (lookup_updateIndices _ _ _ _ _ name Hupd) as [_ ->].
  destruct (indexers i !! name); eauto.
Qed.

Lemma indexed_exec (o : op) c c' : indexed c → exec o c = Returned c' → indexed c'.
Proof.
  intros Hc. destruct o as [key obj|key obj|key|its rv|newIndexers]; simpl.
  - intros [_ Hupd]%Update_Returned _ name. by eapply updateIndices_indexed.
  - intros [_ Hupd]%Update_Returned _ name. by eapply updateIndices_indexed.
  - intros Hdel%Delete_Returned.
    destruct (items c !! key) as [obj|]; [|by subst].
    destruct Hdel as [_ Hupd]. intros _ name. by eapply updateIndices_indexed.
  - unfold Replace.
    destruct (Replace_loop _ _) as [i'|p] eqn:E; [|done].
    intros [= <-] Hne name. simpl in *.
    destruct (map_to_list its) as [|[key obj] entries] eqn:El.
    { by apply map_to_list_empty_iff in El. }
    simpl in E.
    destruct (updateIndices None obj key _) as [i1|p] eqn:E1; [|done].
    simpl in E. rewrite (Replace_loop_indexers _ _ _ E).
    intros H1%(updateIndices_indexed _ _ _ _ _ _ E1).
    clear -E H1. revert i1 E H1.
    induction entries as [|[k o] entries IH]; intros i1; simpl.
    + by intros [= <-].
    + destruct (updateIndices None o k i1) as [i2|p] eqn:E2; [|done]. simpl.
      intros E H1. apply (IH i2 E). by eapply updateIndices_keeps_index.
  - intros [= <-]. rewrite AddIndexers_eq.
    destruct (decide (items c = ∅)) as [Hempty|Hne]; [|done].
    by intros Hne'.
Qed.

Lemma constructed_indexed c : constructed c → indexed c.
Proof.
  intros (ixrs & ixs & ops & Hrun).
  assert (∀ c0, indexed c0 → run ops c0 = Returned c → indexed c) as Hind.
  { clear. induction ops as [|o ops IH]; intros c0 H0; simpl.
    - by intros [= <-].
    - destruct (exec o c0) as [c1|p] eqn:E; [|done]. simpl.
      apply IH. by eapply indexed_exec. }
  apply (Hind (NewThreadSafeStore ixrs ixs)); [|done].
  intros Hne. by destruct Hne.
Qed.

(** An iteration on the fast path, whatever the indices hold: no bucket
    changes; the indices are left as they are when they hold an index under
    the name, and get an empty index under the name when they hold none. *)
Lemma fast_path_keeps_buckets oldObj newObj key name f lv
    (ixs : gmap string (gmap string (gset string))) value :
  is_Some oldObj → is_Some newObj →
  f oldObj = ([value], None) → f newObj = ([value], None) →
  ∃ ixs',
    updateIndices_body oldObj newObj key name f (lv, ixs)
    = Returned (Locals [value] [value] None, ixs') ∧
    (is_Some (ixs !! name) → ixs' = ixs) ∧
    (ixs !! name = None → ixs' = <[name := ∅]> ixs) ∧
    (∀ name', index_of ixs' name' = index_of ixs name').
Proof.
  intros [vo ->] [vn ->] Ho Hn. unfold updateIndices_body.
  rewrite Ho Hn. cbn [same_single_value]. rewrite bool_decide_eq_true_2 //.
  destruct (ixs !! name) as [ix|] eqn:E.
  - eexists. split; [done|]. split; [done|]. split; [done|]. done.
  - eexists. split; [done|]. split; [by intros [? ?]|]. split; [done|].
    intros name'. rewrite index_of_insert.
    case_decide as Hname; [|done]. subst name'.
    unfold index_of. by rewrite E.
Qed.

(** C8.  In [Update] on a table a store can be in, take a registered index
    whose function gives, without error, one and the same single value for
    the object stored under the key and for the new object.  Whatever the
    order of the visit, when the loop of [updateIndices] reaches the
    iteration for that index, the iteration returns and leaves the indices
    exactly as it found them; and after [Update] the index under that name
    is the one from before. *)
Theorem fast_path_no_index_mutation c key oldObj newObj name f value :
  constructed c →
  items c !! key = Some oldObj → is_Some oldObj → is_Some newObj →
  f oldObj = ([value], None) → f newObj = ([value], None) →
  (∀ before after s,
     before ++ (name, f) :: after ≡ₚ map_to_list (indexers (index c)) →
     updateIndices_loop oldObj newObj key before
       (Locals [] [] None, indices (index c)) = Returned s →
     updateIndices_body oldObj newObj key name f s
     = Returned (Locals [value] [value] None, s.2)) ∧
  (indexers (index c) !! name = Some f →
   ∀ c', Update key newObj c = Returned c' →
         indices (index c') !! name = indices (index c) !! name).
Proof.
  intros Hc%constructed_indexed Hkey Hold Hnew Hfo Hfn.
  assert (items c ≠ ∅) as Hne
    by (intros Hempty; by rewrite Hempty lookup_empty in Hkey).
  split.
  - intros before after [lv ixs] Hperm Hloop.
    assert (NoDup (before ++ (name, f) :: after).*1) as Hnd
      by (rewrite Hperm; apply NoDup_fst_map_to_list).
    rewrite fmap_app fmap_cons in Hnd.
    apply NoDup_app in Hnd as (Hnd1 & Hfresh & _).
    assert (name ∉ before.*1) as Hname
      by (intros Hin; apply (Hfresh _ Hin); left).
    assert (indexers (index c) !! name = Some f) as Hf.
    { apply elem_of_map_to_list. rewrite -Hperm.
      apply elem_of_app. right. left. }
    pose proof (updateIndices_loop_eq oldObj newObj key before
                  (Locals [] [] None) (indices (index c)) eq_refl) as Heq.
    destruct (first_failure oldObj newObj before) as [[n e]|];
      [congruence|].
    destruct Heq as (lv' & _ & Heq). rewrite Heq in Hloop.
    injection Hloop as <- <-.
    destruct (Hc Hne name) as [ix Hix]; [by eauto|].
    destruct (fast_path_keeps_buckets oldObj newObj key name f lv'
                (reconciled oldObj newObj key before (indices (index c)))
                value Hold Hnew Hfo Hfn) as (ixs' & Hbody & Hsame & _).
    rewrite Hbody. simpl. f_equal. f_equal. apply Hsame.
    rewrite lookup_reconciled //.
    rewrite (not_elem_of_list_to_map_1 before name) //.
  - intros Hf c' [_ Hupd]%Update_Returned.
    rewrite (item_of_lookup _ _ _ Hkey) in Hupd.
    destruct (lookup_updateIndices _ _ _ _ _ name Hupd) as [_ ->].
    rewrite Hf. destruct (Hc Hne name) as [ix Hix]; [by eauto|].
    unfold reconcile_index, index_of, values_of.
    destruct Hold as [vo ->], Hnew as [vn ->]. rewrite Hfo Hfn Hix. simpl.
    by rewrite bool_decide_eq_true_2.
Qed.

(** C2.  [Replace] returns exactly when no registered index function fails
    on an object of the new items that is not nil.  When it returns, the
    items are the new items, [List] and [ListKeys] give their objects and
    their keys, the index functions are those registered before, and the
    table is the one that adding the entries of the new items, in any order,
    to a store with the same index functions and empty items and indices
    gives; nothing of the items and indices found before the call is left
    in it. *)
Theorem Replace_rebuilds (its : gmap string (option V)) resourceVersion c :
  ((∃ c', Replace its resourceVersion c = Returned c') ↔
   (∀ key obj name f,
      its !! key = Some obj → indexers (index c) !! name = Some f →
      err_of f obj = None)) ∧
  (∀ c', Replace its resourceVersion c = Returned c' →
     items c' = its ∧
     List c' ≡ₚ (map_to_list its).*2 ∧
     ListKeys c' ≡ₚ (map_to_list its).*1 ∧
     indexers (index c') = indexers (index c) ∧
     (∀ entries, entries ≡ₚ map_to_list its →
        add_all entries (NewThreadSafeStore (indexers (index c)) ∅)
        = Returned c') ∧
     (∀ c0, indexers (index c0) = indexers (index c) →
        Replace its resourceVersion c0 = Returned c')).
Proof.
  split.
  - unfold Replace. split.
    + intros [c' Hc'] key obj name f Hobj Hf.
      destruct (Replace_loop _ _) as [i'|p] eqn:E; [|done].
      apply (proj1 (Replace_loop_Returned_iff _ _) (ex_intro _ _ E)
               key obj name f); [|done].
      by apply elem_of_map_to_list.
    + intros H.
      destruct (proj2 (Replace_loop_Returned_iff (map_to_list its)
                         (reset (index c)))) as [i' Hi'].
      { intros key obj name f Hin%elem_of_map_to_list Hf.
        by apply (H key obj name f). }
      rewrite Hi'. simpl. eauto.
  - intros c' Hrep.
    assert (items c' = its ∧ indexers (index c') = indexers (index c))
      as [Hits Hixrs].
    { unfold Replace in Hrep.
      destruct (Replace_loop _ _) as [i'|p] eqn:E; [|done].
      injection Hrep as <-. split; [done|]. simpl.
      by rewrite (Replace_loop_indexers _ _ _ E). }
    split; [done|]. unfold List, ListKeys. rewrite Hits.
    split; [done|]. split; [done|]. split; [done|]. split.
    + intros entries Hperm. rewrite Replace_eq_add_all in Hrep.
      eapply add_all_order; [apply NoDup_fst_map_to_list| |done]. done.
    + intros c0 H0. rewrite Replace_eq_add_all H0.
      by rewrite -(Replace_eq_add_all its resourceVersion c).
Qed.

End Contract.

(** * Further properties of the store *)

Section Reads.
Context {V : Type}.
Implicit Types (c : @threadSafeMap V) (i : @storeIndex V).
Implicit Types (f : @IndexFunc V) (obj : option V).
Implicit Types (index : gmap string (gset string)).
Implicit Types (key name value indexName indexedValue : string).

(** An index without empty bucket is known by the keys of its buckets. *)
Lemma index_eq_of_buckets index1 index2 :
  no_empty_bucket index1 → no_empty_bucket index2 →
  (∀ value, bucket index1 value = bucket index2 value) → index1 = index2.
Proof.
  intros N1 N2 Hb. apply map_eq. intros value.
  specialize (Hb value). unfold bucket in Hb.
  pose proof (N1 value) as N1'. pose proof (N2 value) as N2'.
  destruct (index1 !! value) as [s1|], (index2 !! value) as [s2|];
    simpl in *; subst; try done.
  - by destruct (N1' ∅).
  - by destruct (N2' ∅).
Qed.

(** X1.  After [Update] of a key with an object, [Get] of the key gives the
    object and true, also when the object is nil, and [Get] of every other
    key gives what it gave before. *)
Theorem Get_after_Update key obj c c' :
  Update key obj c = Returned c' →
  Get key c' = (obj, true) ∧
  ∀ key', key' ≠ key → Get key' c' = Get key' c.
Proof.
  intros [Hits _]%Update_Returned. unfold Get, item_of. rewrite Hits. split.
  - by rewrite lookup_insert_eq.
  - intros key' Hne. by rewrite lookup_insert_ne.
Qed.

(** X2.  After [Delete] of a key, [Get] of the key gives nil and false,
    [Get] of every other key gives what it gave before, and a second
    [Delete] of the key leaves the table as the first left it. *)
Theorem Get_after_Delete key c c' :
  Delete key c = Returned c' →
  Get key c' = (None, false) ∧
  (∀ key', key' ≠ key → Get key' c' = Get key' c) ∧
  Delete key c' = Returned c'.
Proof.
  intros Hdel%Delete_Returned.
  assert (items c' = delete key (items c)) as Hits.
  { destruct (items c !! key) as [obj|] eqn:E.
    - by destruct Hdel.
    - subst c'. by rewrite delete_id. }
  assert (items c' !! key = None) as Hkey
    by (rewrite Hits; apply lookup_delete_eq).
  unfold Get, item_of. split; [|split].
  - by rewrite Hkey.
  - intros key' Hne. by rewrite Hits lookup_delete_ne.
  - unfold Delete. by rewrite Hkey.
Qed.

(** X3.  [ListKeys] gives every key of the table once, [List] gives one
    object for each key, a key is listed exactly when [Get] finds it, and
    an object is listed exactly when [Get] gives it for some key. *)
Theorem List_ListKeys_Get c :
  NoDup (ListKeys c) ∧
  length (ListKeys c) = size (items c) ∧
  length (List c) = size (items c) ∧
  (∀ key, key ∈ ListKeys c ↔ (Get key c).2 = true) ∧
  (∀ obj, obj ∈ List c ↔ ∃ key, Get key c = (obj, true)).
Proof.
  unfold ListKeys, List, Get, item_of. split; [|split; [|split; [|split]]].
  - apply NoDup_fst_map_to_list.
  - by rewrite length_fmap length_map_to_list.
  - by rewrite length_fmap length_map_to_list.
  - intros key. simpl. rewrite bool_decide_eq_true list_elem_of_fmap. split.
    + intros ([k o] & -> & Hin%elem_of_map_to_list). eauto.
    + intros [o Ho]. exists (key, o). split; [done|].
      by apply elem_of_map_to_list.
  - intros obj. rewrite list_elem_of_fmap. split.
    + intros ([k o] & -> & Hin%elem_of_map_to_list). exists k.
      by rewrite Hin.
    + intros (key & Hget). injection Hget as Hobj Hsome.
      apply bool_decide_eq_true in Hsome as [o Ho].
      rewrite Ho in Hobj. simpl in Hobj. subst o.
      exists (key, obj). split; [done|]. by apply elem_of_map_to_list.
Qed.

Lemma elem_of_foldl_union_bucket index (values : list string)
    (set : gset string) key :
  key ∈ foldl (λ storeKeySet indexValue, storeKeySet ∪ bucket index indexValue)
              set values ↔
  key ∈ set ∨ ∃ value, value ∈ values ∧ key ∈ bucket index value.
Proof.
  revert set. induction values as [|v values IH]; intros set; simpl.
  - split; [by left|]. intros [?|(value & ?%elem_of_nil & _)]; done.
  - rewrite IH elem_of_union. split.
    + intros [[?|?]|(value & Hin & Hk)]; [by left| |].
      * right. exists v. split; [left|done].
      * right. exists value. split; [by right|done].
    + intros [?|(value & [->|Hin]%elem_of_cons & Hk)].
      * by left; left.
      * by left; right.
      * right. eauto.
Qed.

Lemma getKeysFromIndex_values indexName obj i f (values : list string) :
  indexers i !! indexName = Some f → f obj = (values, None) →
  ∃ storeKeySet,
    getKeysFromIndex indexName obj i = (storeKeySet, None) ∧
    ∀ key, key ∈ storeKeySet ↔
           ∃ value, value ∈ values ∧
                    key ∈ bucket (index_of (indices i) indexName) value.
Proof.
  intros Hf Hobj. unfold getKeysFromIndex. rewrite Hf Hobj.
  destruct values as [|v [|v' values]].
  - eexists. split; [done|]. intros key. simpl. split; [set_solver|].
    by intros (value & ?%elem_of_nil & _).
  - eexists. split; [done|]. intros key. split.
    + intros Hk. exists v. split; [left|done].
    + by intros (value & ->%list_elem_of_singleton & Hk).
  - eexists. split; [done|]. intros key.
    rewrite elem_of_foldl_union_bucket. split.
    + by intros [?%not_elem_of_empty|?].
    + by right.
Qed.

(** X4.  [getKeysFromIndex] returns the error "Index with name ... does not
    exist" for a name that is not registered, and the error of the index
    function when that fails, which it is asked also for nil; otherwise it
    returns without error the keys that are in the bucket of at least one
    of the values the index function gives for the object. *)
Theorem getKeysFromIndex_union indexName obj i :
  (indexers i !! indexName = None →
   getKeysFromIndex indexName obj i = (∅, Some (IndexNotFound indexName))) ∧
  (∀ f values e,
     indexers i !! indexName = Some f → f obj = (values, Some e) →
     getKeysFromIndex indexName obj i = (∅, Some e)) ∧
  (∀ f values,
     indexers i !! indexName = Some f → f obj = (values, None) →
     ∃ storeKeySet,
       getKeysFromIndex indexName obj i = (storeKeySet, None) ∧
       ∀ key, key ∈ storeKeySet ↔
              ∃ value, value ∈ values ∧
                       key ∈ bucket (index_of (indices i) indexName) value).
Proof.
  split; [|split].
  - intros Hnone. unfold getKeysFromIndex. by rewrite Hnone.
  - intros f values e Hf Hobj. unfold getKeysFromIndex. by rewrite Hf Hobj.
  - intros f values. apply getKeysFromIndex_values.
Qed.


(** X6.  On an index without empty bucket, deleting a key from the bucket of
    a value after adding it there gives back the index when the key was not
    in the bucket, and adding it after deleting it gives back the index when
    it was. *)
Theorem addKeyToIndex_deleteKeyFromIndex key value index :
  no_empty_bucket index →
  (key ∉ bucket index value →
   deleteKeyFromIndex key value (addKeyToIndex key value index) = index) ∧
  (key ∈ bucket index value →
   addKeyToIndex key value (deleteKeyFromIndex key value index) = index).
Proof.
  intros Hne. split; intros Hkey.
  - apply index_eq_of_buckets;
      [by apply no_empty_bucket_delete, no_empty_bucket_add|done|].
    intros value'. rewrite bucket_deleteKeyFromIndex.
    destruct (decide (value = value')) as [<-|Hv].
    + rewrite bucket_addKeyToIndex decide_True //. set_solver.
    + by rewrite bucket_addKeyToIndex decide_False.
  - apply index_eq_of_buckets;
      [by apply no_empty_bucket_add, no_empty_bucket_delete|done|].
    intros value'. rewrite bucket_addKeyToIndex.
    destruct (decide (value = value')) as [<-|Hv].
    + rewrite bucket_deleteKeyFromIndex decide_True //.
      apply set_eq. intros k. rewrite elem_of_union elem_of_difference
        elem_of_singleton. split; [by intros [->|[? _]]|].
      intros Hk. destruct (decide (k = key)) as [->|]; [by left|by right].
    + by rewrite bucket_deleteKeyFromIndex decide_False.
Qed.

End Reads.

Section Reachable.
Context {V : Type}.
Implicit Types (c : @threadSafeMap V) (i : @storeIndex V).
Implicit Types (f : @IndexFunc V) (obj : option V).
Implicit Types (key name value indexName indexedValue : string).

Lemma consistent_no_empty_index_of c name :
  consistent c → no_empty_bucket (index_of (indices (index c)) name).
Proof.
  intros Hc. unfold index_of.
  destruct (indices (index c) !! name) as [ix|] eqn:E; simpl.
  - by apply (cons_no_empty _ Hc name).
  - apply no_empty_bucket_empty.
Qed.

Lemma index_of_unregistered c name :
  consistent c → indexers (index c) !! name = None →
  index_of (indices (index c)) name = ∅.
Proof.
  intros Hc Hnone. unfold index_of.
  destruct (indices (index c) !! name) as [ix|] eqn:E; [|done].
  destruct (cons_registered _ Hc name) as [? ?]; [eauto|congruence].
Qed.

(** Two consistent tables with the same items and index functions have the
    same buckets in every index. *)
Lemma consistent_index_of_unique c1 c2 name :
  consistent c1 → consistent c2 →
  items c1 = items c2 → indexers (index c1) = indexers (index c2) →
  index_of (indices (index c1)) name = index_of (indices (index c2)) name.
Proof.
  intros H1 H2 Hits Hixrs.
  destruct (indexers (index c1) !! name) as [f|] eqn:Ef.
  - apply index_eq_of_buckets; [by apply consistent_no_empty_index_of..|].
    intros value. apply set_eq. intros key.
    pose proof (cons_member _ H1 name f value key Ef) as M1.
    rewrite Hixrs in Ef.
    pose proof (cons_member _ H2 name f value key Ef) as M2.
    unfold in_bucket in M1, M2. by rewrite M1 M2 Hits.
  - rewrite (index_of_unregistered c1) // (index_of_unregistered c2) //.
    by rewrite -Hixrs.
Qed.

Lemma Update_returns_consistent key obj c :
  consistent c →
  (∃ c', Update key obj c = Returned c') ↔
  ∀ name f, indexers (index c) !! name = Some f → err_of f obj = None.
Proof.
  intros Hc. split.
  - intros [c' [_ Hupd]%Update_Returned] name f Hf.
    by apply (proj1 (updateIndices_Returned_iff _ _ _ _)
                (ex_intro _ _ Hupd) name f Hf).
  - intros Hok.
    destruct (proj2 (updateIndices_Returned_iff (item_of (items c) key) obj
                       key (index c))) as [i' Hi'].
    { intros name f Hf. split; [|by apply (Hok name f)].
      unfold item_of. destruct (items c !! key) as [old|] eqn:E; [|done].
      by apply (cons_no_err _ Hc key old name f). }
    eexists. unfold Update. by rewrite Hi'.
Qed.

Lemma Delete_returns_consistent key c :
  consistent c → ∃ c', Delete key c = Returned c'.
Proof.
  intros Hc. unfold Delete.
  destruct (items c !! key) as [obj|] eqn:E; [|eauto].
  destruct (proj2 (updateIndices_Returned_iff obj None key (index c)))
    as [i' Hi'].
  { intros name f Hf. split; [|done].
    by apply (cons_no_err _ Hc key obj name f). }
  rewrite Hi'. simpl. eauto.
Qed.

Lemma Replace_Returned (its : gmap string (option V)) resourceVersion c c' :
  Replace its resourceVersion c = Returned c' →
  items c' = its ∧ indexers (index c') = indexers (index c).
Proof.
  unfold Replace.
  destruct (Replace_loop _ _) as [i'|p] eqn:E; [|done].
  intros [= <-]. split; [done|]. simpl.
  by rewrite (Replace_loop_indexers _ _ _ E).
Qed.

(** X7.  On a table reached from an empty store, every key found in a
    bucket of an index is a key of the table that holds an object other
    than nil: the indices keep no key of a deleted or replaced item. *)
Theorem bucket_keys_are_stored c name value key :
  reachable c → in_bucket c name value key →
  ∃ v, items c !! key = Some (Some v).
Proof.
  intros Hc%consistent_reachable Hin.
  destruct (indexers (index c) !! name) as [f|] eqn:Ef.
  - destruct (proj1 (cons_member _ Hc name f value key Ef) Hin)
      as ([v|] & Hobj & Hv); [eauto|].
    by apply elem_of_nil in Hv.
  - by destruct (in_bucket_unregistered c name value key).
Qed.




(** X11.  On a table reached from an empty store, [Update] returns exactly
    when no registered index function fails on the new object: the object
    that is replaced never makes it panic. *)
Theorem Update_returns_iff_indexable key obj c :
  reachable c →
  (∃ c', Update key obj c = Returned c') ↔
  ∀ name f, indexers (index c) !! name = Some f → err_of f obj = None.
Proof. intros Hc%consistent_reachable. by apply Update_returns_consistent. Qed.

(** X12.  On a table reached from an empty store, [Delete] returns for
    every key: it never panics. *)
Theorem Delete_returns key c :
  reachable c → ∃ c', Delete key c = Returned c'.
Proof. intros Hc%consistent_reachable. by apply Delete_returns_consistent. Qed.

(** X13.  On a table reached from an empty store, an [Update] that has
    returned can be repeated with the same key and object: the second call
    returns and leaves the table as the first left it. *)
Theorem Update_twice key obj c c' :
  reachable c → Update key obj c = Returned c' →
  Update key obj c' = Returned c'.
Proof.
  intros Hc%consistent_reachable Hupd.
  pose proof (consistent_Update _ _ _ _ Hc Hupd) as Hc'.
  destruct (Update_Returned _ _ _ _ Hupd) as [Hits Hi].
  assert (items c' !! key = Some obj) as Hkey
    by (rewrite Hits; apply lookup_insert_eq).
  destruct (proj2 (Update_returns_consistent key obj c' Hc')) as [c'' Hupd'].
  { intros name f Hf. by apply (cons_no_err _ Hc' key obj name f). }
  rewrite Hupd'. f_equal.
  pose proof (consistent_Update _ _ _ _ Hc' Hupd') as Hc''.
  destruct (Update_Returned _ _ _ _ Hupd') as [Hits' Hi'].
  apply consistent_unique; [done..| | |].
  - by rewrite Hits' insert_id.
  - rewrite (proj1 (lookup_updateIndices _ _ _ _ _ key Hi')). done.
  - rewrite Hits' insert_id //. intros Hempty.
    by rewrite Hempty lookup_empty in Hkey.
Qed.

(** X14.  On a table reached from an empty store, [Add] of a key that is not
    in the table followed by [Delete] of the key returns and gives back the
    items, the index functions and every bucket of every index. *)
Theorem Add_then_Delete key obj c c' :
  reachable c → items c !! key = None → Add key obj c = Returned c' →
  ∃ c'', Delete key c' = Returned c'' ∧
         items c'' = items c ∧
         indexers (index c'') = indexers (index c) ∧
         ∀ name, index_of (indices (index c'')) name =
                 index_of (indices (index c)) name.
Proof.
  intros Hc%consistent_reachable Hfresh Hadd. unfold Add in Hadd.
  pose proof (consistent_Update _ _ _ _ Hc Hadd) as Hc'.
  destruct (Update_Returned _ _ _ _ Hadd) as [Hits Hi].
  destruct (Delete_returns_consistent key c' Hc') as [c'' Hdel].
  pose proof (consistent_Delete _ _ _ Hc' Hdel) as Hc''.
  exists c''. split; [done|].
  apply Delete_Returned in Hdel.
  assert (items c' !! key = Some obj) as Hkey
    by (rewrite Hits; apply lookup_insert_eq).
  rewrite Hkey in Hdel. destruct Hdel as [Hits'' Hi''].
  assert (items c'' = items c) as Hsame
    by (rewrite Hits'' Hits; by apply delete_insert_id).
  assert (indexers (index c'') = indexers (index c)) as Hixrs.
  { rewrite (proj1 (lookup_updateIndices _ _ _ _ _ key Hi'')).
    by rewrite (proj1 (lookup_updateIndices _ _ _ _ _ key Hi)). }
  split; [done|]. split; [done|].
  intros name. by apply consistent_index_of_unique.
Qed.

(** X15.  On a table reached from an empty store, [Replace] with the items
    the table holds returns and gives back the items, the index functions
    and every bucket of every index: the indices hold nothing but what the
    items determine. *)
Theorem Replace_own_items resourceVersion c :
  reachable c →
  ∃ c', Replace (items c) resourceVersion c = Returned c' ∧
        items c' = items c ∧
        indexers (index c') = indexers (index c) ∧
        ∀ name, index_of (indices (index c')) name =
                index_of (indices (index c)) name.
Proof.
  intros Hc%consistent_reachable.
  assert (∃ c', Replace (items c) resourceVersion c = Returned c')
    as [c' Hrep].
  { unfold Replace.
    destruct (proj2 (Replace_loop_Returned_iff (map_to_list (items c))
                       (reset (index c)))) as [i' Hi'].
    - intros key obj name f Hin%elem_of_map_to_list Hf.
      by apply (cons_no_err _ Hc key obj name f).
    - rewrite Hi'. simpl. eauto. }
  exists c'. split; [done|].
  destruct (Replace_Returned _ _ _ _ Hrep) as [Hits Hixrs].
  split; [done|]. split; [done|].
  intros name. apply consistent_index_of_unique; [|done..].
  by eapply consistent_Replace.
Qed.

(** X16.  No call removes or changes a registered index function, as
    [GetIndexers] shows them: after any
    run of calls that return, every name registered before is registered
    with the same function; and add, update, delete and replace leave the
    registry exactly as it was. *)
Theorem registry_kept (ops : list op) c c' :
  run ops c = Returned c' →
  (∀ name f, GetIndexers c !! name = Some f →
             GetIndexers c' !! name = Some f) ∧
  (Forall is_add_update_delete_replace ops →
   GetIndexers c' = GetIndexers c).
Proof.
  unfold GetIndexers.
  assert (∀ (o : op) c0 c1, exec o c0 = Returned c1 →
    (∀ name f, indexers (index c0) !! name = Some f →
               indexers (index c1) !! name = Some f) ∧
    (is_add_update_delete_replace o →
     indexers (index c1) = indexers (index c0))) as Hexec.
  { intros o c0 c1.
    assert (indexers (index c1) = indexers (index c0) →
      (∀ name f, indexers (index c0) !! name = Some f →
                 indexers (index c1) !! name = Some f) ∧
      (is_add_update_delete_replace o →
       indexers (index c1) = indexers (index c0))) as Hsame
      by (intros ->; done).
    destruct o as [key obj|key obj|key|its rv|newIndexers]; simpl.
    - intros [_ Hupd]%Update_Returned. apply Hsame.
      apply (lookup_updateIndices _ _ _ _ _ key Hupd).
    - intros [_ Hupd]%Update_Returned. apply Hsame.
      apply (lookup_updateIndices _ _ _ _ _ key Hupd).
    - intros Hdel%Delete_Returned. apply Hsame.
      destruct (items c0 !! key) as [obj|]; [|by subst].
      destruct Hdel as [_ Hupd].
      apply (lookup_updateIndices _ _ _ _ _ key Hupd).
    - intros [_ Hixrs]%Replace_Returned. by apply Hsame.
    - intros [= <-]. split; [|done]. intros name f Hf.
      rewrite AddIndexers_eq.
      destruct (decide (items c0 = ∅)); [|done]. simpl.
      rewrite addIndexers_eq.
      destruct (decide (dom (indexers (index c0)) ∩ dom newIndexers = ∅))
        as [Hdisj|]; [|done]. simpl.
      rewrite lookup_union_r //. apply not_elem_of_dom.
      assert (name ∈ dom (indexers (index c0)))
        by (apply elem_of_dom; eauto).
      set_solver. }
  revert c. induction ops as [|o ops IH]; intros c; simpl.
  - by intros [= <-].
  - destruct (exec o c) as [c1|p] eqn:E; [|done]. simpl. intros Hrun.
    destruct (Hexec o c c1 E) as [Hkeep Hsame].
    destruct (IH c1 Hrun) as [Hkeep' Hsame']. split.
    + intros name f Hf. by apply Hkeep', Hkeep.
    + intros [Ho Hops]%Forall_cons. by rewrite (Hsame' Hops) (Hsame Ho).
Qed.

(** X17.  The order in which [updateIndices] visits the registered index
    functions does not matter: visited in any order, the loop panics when
    [updateIndices] panics, and returns the same indices when it returns. *)
Theorem updateIndices_any_order (oldObj newObj : option V) key i
    (entries : list (string * @IndexFunc V)) :
  entries ≡ₚ map_to_list (indexers i) →
  match updateIndices oldObj newObj key i,
        updateIndices_loop oldObj newObj key entries
          (Locals [] [] None, indices i) with
  | Returned i', Returned s => indexers i' = indexers i ∧ indices i' = s.2
  | Panicked _, Panicked _ => True
  | _, _ => False
  end.
Proof.
  intros Hperm. unfold updateIndices.
  pose proof (updateIndices_loop_order oldObj newObj key
                (map_to_list (indexers i)) entries (Locals [] [] None)
                (indices i) eq_refl (NoDup_fst_map_to_list _)
                (symmetry Hperm)) as H.
  destruct (updateIndices_loop oldObj newObj key (map_to_list (indexers i)) _)
    as [s|p]; simpl;
    destruct (updateIndices_loop oldObj newObj key entries _) as [s'|p'];
    done.
Qed.

(** X18.  [Update] of a key that is not in the table adds that key, and no
    other, to what [ListKeys] gives; [Update] of a key that is in the table
    leaves the keys as they are; [Delete] of a key that is in the table
    takes that key, and no other, away. *)
Theorem ListKeys_after_Update_Delete key c :
  (∀ obj c', Update key obj c = Returned c' →
     match items c !! key with
     | None => ListKeys c' ≡ₚ key :: ListKeys c
     | Some _ => ListKeys c' ≡ₚ ListKeys c
     end) ∧
  (∀ c', Delete key c = Returned c' →
     match items c !! key with
     | None => ListKeys c' = ListKeys c
     | Some _ => key :: ListKeys c' ≡ₚ ListKeys c
     end).
Proof.
  unfold ListKeys. split.
  - intros obj c' [Hits _]%Update_Returned. rewrite Hits.
    destruct (items c !! key) as [old|] eqn:E.
    + rewrite -insert_delete_eq.
      rewrite map_to_list_insert; [|apply lookup_delete_eq].
      rewrite -(map_to_list_delete (items c) key old E). done.
    + by rewrite map_to_list_insert.
  - intros c' Hdel%Delete_Returned.
    destruct (items c !! key) as [old|] eqn:E; [|by subst].
    destruct Hdel as [-> _].
    by rewrite -(map_to_list_delete (items c) key old E).
Qed.

(** X19.  A call of [updateIndices] for a key that returns leaves every
    other key in exactly the buckets it was in, in every index, whatever
    the indices held. *)
Theorem updateIndices_other_keys (oldObj newObj : option V) key i i' :
  updateIndices oldObj newObj key i = Returned i' →
  ∀ name value key', key' ≠ key →
    key' ∈ bucket (index_of (indices i') name) value ↔
    key' ∈ bucket (index_of (indices i) name) value.
Proof.
  intros Hupd name value key' Hne.
  destruct (lookup_updateIndices _ _ _ _ _ name Hupd) as [_ Hlook].
  unfold index_of at 1. rewrite Hlook.
  destruct (indexers i !! name) as [f|] eqn:Ef; [|done]. simpl.
  destruct (same_single_value (values_of f newObj) (values_of f oldObj))
    eqn:Efast.
  - unfold reconcile_index. by rewrite Efast.
  - rewrite elem_of_bucket_reconcile_index //. split.
    + by intros [[? _]|[? _]].
    + intros Hin. right. split; [done|]. by intros [? _].
Qed.

End Reachable.

(** * The contract on a store of strings *)

Section Examples.
Open Scope string_scope.

(** The scenario of the test of [Delete]: the bucket goes with its last
    key. *)
Example run_ops1 : run Ex.ops1 Ex.store0 = Returned Ex.store1.
Proof. vm_compute. reflexivity. Qed.

Example run_ops3 : run Ex.ops3 Ex.store0 = Returned Ex.store3.
Proof. vm_compute. reflexivity. Qed.

Example Replace_store1 : Replace Ex.items2 "7" Ex.store1 = Returned Ex.store2.
Proof. vm_compute. reflexivity. Qed.


(** TestThreadSafeStoreDeleteRemovesEmptySetsFromIndex. *)
Example test_DeleteRemovesEmptySetsFromIndex :
  ∃ c1 c2,
    Add "testKey" (Some "testKey") Ex.store0 = Returned c1 ∧
    size (bucket (index_of (indices (index c1)) "testIndexer") "testKey") = 1 ∧
    Delete "testKey" c1 = Returned c2 ∧
    index_of (indices (index c2)) "testIndexer" !! "testKey" = None.
Proof.
  do 2 eexists. split; [vm_compute; reflexivity|].
  split; [vm_compute; reflexivity|].
  split; [vm_compute; reflexivity|]. vm_compute. reflexivity.
Qed.

(** TestThreadSafeStoreAddKeepNonEmptySetPostDeleteFromIndex. *)
Example test_AddKeepNonEmptySetPostDeleteFromIndex :
  ∃ c1 c2 set,
    run [OpAdd "retain" (Some "retain"); OpAdd "delete" (Some "delete")]
      Ex.store_constant = Returned c1 ∧
    size (bucket (index_of (indices (index c1)) "testIndexer") "testIndex") = 2 ∧
    Delete "delete" c1 = Returned c2 ∧
    index_of (indices (index c2)) "testIndexer" !! "testIndex" = Some set ∧
    size set = 1.
Proof.
  do 3 eexists. split; [vm_compute; reflexivity|].
  split; [vm_compute; reflexivity|].
  split; [vm_compute; reflexivity|].
  split; [vm_compute; reflexivity|]. vm_compute. reflexivity.
Qed.

(** TestThreadSafeStoreIndexingFunctionsWithMultipleValues. *)
Example test_IndexingFunctionsWithMultipleValues :
  ∃ c1 c2 c3 c4 c5 c6 c7 c8,
    run [OpAdd "key1" (Some "foo"); OpAdd "key2" (Some "bar")]
      Ex.store_fields = Returned c1 ∧
    Ex.keys_under "foo" c1 = ["key1"] ∧ Ex.keys_under "bar" c1 = ["key2"] ∧
    Update "key2" (Some "foo,bar") c1 = Returned c2 ∧
    Ex.keys_under "foo" c2 = ["key1"; "key2"] ∧
    Ex.keys_under "bar" c2 = ["key2"] ∧
    Update "key1" (Some "foo,bar") c2 = Returned c3 ∧
    Ex.keys_under "foo" c3 = ["key1"; "key2"] ∧
    Ex.keys_under "bar" c3 = ["key1"; "key2"] ∧
    Add "key3" (Some "foo,bar,baz") c3 = Returned c4 ∧
    Ex.keys_under "foo" c4 = ["key1"; "key2"; "key3"] ∧
    Ex.keys_under "bar" c4 = ["key1"; "key2"; "key3"] ∧
    Ex.keys_under "baz" c4 = ["key3"] ∧
    Update "key1" (Some "foo") c4 = Returned c5 ∧
    Ex.keys_under "foo" c5 = ["key1"; "key2"; "key3"] ∧
    Ex.keys_under "bar" c5 = ["key2"; "key3"] ∧
    Ex.keys_under "baz" c5 = ["key3"] ∧
    Update "key2" (Some "bar") c5 = Returned c6 ∧
    Ex.keys_under "foo" c6 = ["key1"; "key3"] ∧
    Ex.keys_under "bar" c6 = ["key2"; "key3"] ∧
    Ex.keys_under "baz" c6 = ["key3"] ∧
    Delete "key1" c6 = Returned c7 ∧
    Ex.keys_under "foo" c7 = ["key3"] ∧
    Ex.keys_under "bar" c7 = ["key2"; "key3"] ∧
    Ex.keys_under "baz" c7 = ["key3"] ∧
    Delete "key3" c7 = Returned c8 ∧
    Ex.keys_under "foo" c8 = [] ∧
    Ex.keys_under "bar" c8 = ["key2"] ∧
    Ex.keys_under "baz" c8 = [].
Proof.
  do 8 eexists. repeat split; vm_compute; reflexivity.
Qed.

(** The three scenarios of the contract: two objects under "a"; one of them
    moves to "b"; the other is deleted and "a" is no longer a value of the
    index. *)
Example scenarios_byFirstChar :
  ∃ c1 c2 c3,
    run [OpAdd "k1" (Some "apple"); OpAdd "k2" (Some "avocado")]
      Ex.store_chars = Returned c1 ∧
    ByIndex "byFirstChar" "a" c1 = ([Some "apple"; Some "avocado"], None) ∧
    Update "k1" (Some "banana") c1 = Returned c2 ∧
    ByIndex "byFirstChar" "a" c2 = ([Some "avocado"], None) ∧
    ByIndex "byFirstChar" "b" c2 = ([Some "banana"], None) ∧
    Delete "k2" c2 = Returned c3 ∧
    ListIndexFuncValues "byFirstChar" c3 = ["b"].
Proof.
  do 3 eexists. split; [vm_compute; reflexivity|].
  split; [vm_compute; reflexivity|].
  split; [vm_compute; reflexivity|].
  split; [vm_compute; reflexivity|].
  split; [vm_compute; reflexivity|].
  split; [vm_compute; reflexivity|]. vm_compute. reflexivity.
Qed.

(** C1 as stated fails on a key stored with nil: [Add "key" nil] keeps the
    key in the items, the index function gives "testIndex" when applied to
    nil, and the key is in no bucket, since [updateIndices] does not call
    the index function on nil. *)
Lemma indexed_by_applying_fails_on_nil :
  Forall is_add_update_delete [OpAdd "key" (None : option string)] ∧
  run [OpAdd "key" None] Ex.store_constant = Returned Ex.store_constant_nil ∧
  items Ex.store_constant_nil !! "key" = Some None ∧
  "testIndex" ∈ (Ex.constant None).1 ∧
  ¬ in_bucket Ex.store_constant_nil "testIndexer" "testIndex" "key" ∧
  ¬ indexed_by_applying Ex.store_constant_nil.
Proof.
  assert (¬ in_bucket Ex.store_constant_nil "testIndexer" "testIndex" "key")
    as Hout.
  { unfold in_bucket, index_of. simpl. rewrite lookup_singleton_eq. simpl.
    rewrite bucket_empty. set_solver. }
  split; [repeat constructor|]. split; [vm_compute; reflexivity|].
  split; [reflexivity|]. split; [simpl; set_solver|]. split; [done|].
  intros H. destruct (H "key" None eq_refl) as [H1 _].
  apply Hout. apply (H1 "testIndexer" Ex.constant eq_refl "testIndex").
  simpl. set_solver.
Qed.

Lemma indices_follow_items_witness :
  Forall is_add_update_delete Ex.ops1 ∧
  run Ex.ops1 Ex.store0 = Returned Ex.store1 ∧
  indexed_by_values Ex.store1.
Proof.
  assert (Forall is_add_update_delete Ex.ops1) as H1
    by (repeat constructor).
  assert (run Ex.ops1 Ex.store0 = Returned Ex.store1) as H2
    by (vm_compute; reflexivity).
  split; [exact H1|]. split; [exact H2|].
  exact (indices_follow_items _ Ex.ops1 Ex.store1 H1 H2).
Defined.

Lemma Replace_rebuilds_witness :
  Replace Ex.items2 "7" Ex.store1 = Returned Ex.store2 ∧
  items Ex.store2 = Ex.items2 ∧
  add_all (map_to_list Ex.items2)
    (NewThreadSafeStore (indexers (index Ex.store1)) ∅) = Returned Ex.store2.
Proof.
  assert (Replace Ex.items2 "7" Ex.store1 = Returned Ex.store2) as H
    by (vm_compute; reflexivity).
  destruct (proj2 (Replace_rebuilds Ex.items2 "7" Ex.store1) Ex.store2 H)
    as (Hits & _ & _ & _ & Hadd & _).
  split; [exact H|]. split; [exact Hits|].
  exact (Hadd (map_to_list Ex.items2) (reflexivity _)).
Defined.

Lemma no_empty_bucket_left_witness :
  Forall is_add_update_delete_replace Ex.ops3 ∧
  run Ex.ops3 Ex.store0 = Returned Ex.store3 ∧
  ∀ name ix value set,
    indices (index Ex.store3) !! name = Some ix → ix !! value = Some set →
    set ≠ ∅.
Proof.
  assert (Forall is_add_update_delete_replace Ex.ops3) as H1
    by (repeat constructor).
  assert (run Ex.ops3 Ex.store0 = Returned Ex.store3) as H2
    by (vm_compute; reflexivity).
  split; [exact H1|]. split; [exact H2|].
  exact (no_empty_bucket_left _ Ex.ops3 Ex.store3 H1 H2).
Defined.

Lemma updateIndices_panics_on_error_witness :
  (∃ name f e,
     updateIndices None (Some "bad") "key" Ex.engine_picky =
       Panicked (IndexEntryPanic "key" name e) ∧
     indexers Ex.engine_picky !! name = Some f ∧
     ((is_Some (None : option string) ∧ (f None).2 = Some e) ∨
      (is_Some (Some "bad") ∧ (f (Some "bad")).2 = Some e))) ∧
  (∃ i', updateIndices None (Some "good") "key" Ex.engine_picky = Returned i').
Proof.
  split.
  - apply (proj1 (updateIndices_panics_on_error None (Some "bad") "key"
                    Ex.engine_picky)).
    exists "testIndexer", Ex.picky. split; [reflexivity|].
    right. split; [by eexists|]. vm_compute. by eexists.
  - apply (proj1 (proj2 (updateIndices_panics_on_error None (Some "good")
                           "key" Ex.engine_picky))).
    intros name f Hf.
    destruct (decide (name = "testIndexer")) as [->|Hne].
    + injection Hf as <-. split; [by intros [? ?]|]. intros _. reflexivity.
    + unfold Ex.engine_picky in Hf. simpl in Hf.
      by rewrite lookup_singleton_ne in Hf.
Defined.

Lemma addIndexers_conflict_or_union_witness :
  addIndexers {[ "testIndexer" := Ex.constant ]} Ex.engine0 =
    (Some (IndexerConflict
             (dom (indexers Ex.engine0) ∩
              dom ({[ "testIndexer" := Ex.constant ]}
                   : gmap string (@IndexFunc string)))),
     Ex.engine0) ∧
  addIndexers {[ "byConstant" := Ex.constant ]} Ex.engine0 =
    (None, {| indexers := {[ "byConstant" := Ex.constant ]} ∪ indexers Ex.engine0;
              indices := indices Ex.engine0 |}).
Proof.
  split.
  - apply (proj1 (proj1 (addIndexers_conflict_or_union
                           {[ "testIndexer" := Ex.constant ]}) Ex.engine0)).
    exists "testIndexer". split; by eexists.
  - apply (proj2 (proj1 (addIndexers_conflict_or_union
                           {[ "byConstant" := Ex.constant ]}) Ex.engine0)).
    intros name [f Hf].
    destruct (decide (name = "byConstant")) as [->|Hne]; [reflexivity|].
    by rewrite lookup_singleton_ne in Hf.
Defined.

Lemma AddIndexers_running_index_witness :
  AddIndexers {[ "byConstant" := Ex.constant ]} Ex.store1 =
    (Some IndexerRegistrationOnNonEmptyStore, Ex.store1) ∧
  AddIndexers {[ "byConstant" := Ex.constant ]} Ex.store0 =
    ((addIndexers {[ "byConstant" := Ex.constant ]} (index Ex.store0)).1,
     {| items := items Ex.store0;
        index := (addIndexers {[ "byConstant" := Ex.constant ]}
                    (index Ex.store0)).2 |}).
Proof.
  split.
  - apply (proj1 (AddIndexers_running_index _ Ex.store1)).
    simpl. apply insert_non_empty.
  - apply (proj2 (AddIndexers_running_index _ Ex.store0)). reflexivity.
Defined.

Lemma Delete_absent_noop_witness :
  items Ex.store1 !! "key1" = None ∧
  Delete "key1" Ex.store1 = Returned Ex.store1.
Proof.
  assert (items Ex.store1 !! "key1" = None) as H by reflexivity.
  split; [exact H|]. exact (Delete_absent_noop "key1" Ex.store1 H).
Defined.

Lemma fast_path_no_index_mutation_witness :
  constructed Ex.store1 ∧
  updateIndices_body (Some "foo") (Some "foo") "key2" "testIndexer" Ex.byValue
    (Locals [] [] None, indices (index Ex.store1))
  = Returned (Locals ["foo"] ["foo"] None, indices (index Ex.store1)).
Proof.
  assert (constructed Ex.store1) as H.
  { exists {[ "testIndexer" := Ex.byValue ]}, ∅, Ex.ops1.
    vm_compute. reflexivity. }
  split; [exact H|].
  apply (proj1 (fast_path_no_index_mutation Ex.store1 "key2" (Some "foo")
                  (Some "foo") "testIndexer" Ex.byValue "foo" H eq_refl
                  (ex_intro _ "foo" eq_refl) (ex_intro _ "foo" eq_refl)
                  eq_refl eq_refl)
           [] [] (Locals [] [] None, indices (index Ex.store1))).
  - simpl. by rewrite map_to_list_singleton.
  - reflexivity.
Defined.

Lemma getKeysByIndex_bucket_witness :
  getKeysByIndex "testIndexer" "foo" (index Ex.store1) = ({[ "key2" ]}, None) ∧
  getKeysByIndex "testIndexer" "bar" (index Ex.store1) = (∅, None) ∧
  getKeysByIndex "byConstant" "foo" (index Ex.store1) =
    (∅, Some (IndexNotFound "byConstant")).
Proof.
  destruct (getKeysByIndex_bucket "testIndexer" "foo" Ex.store1)
    as [Hfoo _].
  destruct (getKeysByIndex_bucket "testIndexer" "bar" Ex.store1)
    as [Hbar _].
  destruct (getKeysByIndex_bucket "byConstant" "foo" Ex.store1)
    as [_ Hnone].
  split; [|split].
  - apply (proj1 (Hfoo (ex_intro _ Ex.byValue eq_refl))
             {[ "foo" := {[ "key2" ]} ]}); reflexivity.
  - apply (proj1 (proj2 (Hbar (ex_intro _ Ex.byValue eq_refl)))).
    intros ix [= <-]. reflexivity.
  - apply (proj1 (Hnone eq_refl (indices (index Ex.store1))
                    (items Ex.store1))).
Defined.

Lemma Update_nil_unindexed_witness :
  reachable Ex.store1 ∧
  ∃ c', Update "key2" None Ex.store1 = Returned c' ∧
        Add "key2" None Ex.store1 = Returned c' ∧
        Get "key2" c' = (None, true) ∧
        "key2" ∈ ListKeys c' ∧
        None ∈ List c' ∧
        ∀ name value, ¬ in_bucket c' name value "key2".
Proof.
  assert (reachable Ex.store1) as H.
  { exists {[ "testIndexer" := Ex.byValue ]}, Ex.ops1.
    vm_compute. reflexivity. }
  split; [exact H|]. exact (Update_nil_unindexed "key2" Ex.store1 H).
Defined.

Example Update_nil_store1 :
  Update "key2" None Ex.store1 = Returned Ex.store1_nil.
Proof. vm_compute. reflexivity. Qed.

End Examples.

(** * The further properties on a store of strings *)

Section MoreExamples.
Open Scope string_scope.

Lemma store1_reachable : reachable Ex.store1.
Proof.
  exists {[ "testIndexer" := Ex.byValue ]}, Ex.ops1. vm_compute. reflexivity.
Qed.

Lemma index_of_store1_no_empty :
  no_empty_bucket ({[ "foo" := {[ "key2" ]} ]} : gmap string (gset string)).
Proof.
  intros value set [<- <-]%lookup_singleton_Some. set_solver.
Qed.

Lemma Get_after_Update_witness :
  Update "key2" None Ex.store1 = Returned Ex.store1_nil ∧
  Get "key2" Ex.store1_nil = (None, true) ∧
  ∀ key', key' ≠ "key2" → Get key' Ex.store1_nil = Get key' Ex.store1.
Proof.
  assert (Update "key2" None Ex.store1 = Returned Ex.store1_nil) as H
    by (vm_compute; reflexivity).
  split; [exact H|].
  exact (Get_after_Update "key2" None Ex.store1 Ex.store1_nil H).
Defined.

Lemma Get_after_Delete_witness :
  Delete "key2" Ex.store1 = Returned Ex.store3 ∧
  Get "key2" Ex.store3 = (None, false) ∧
  (∀ key', key' ≠ "key2" → Get key' Ex.store3 = Get key' Ex.store1) ∧
  Delete "key2" Ex.store3 = Returned Ex.store3.
Proof.
  assert (Delete "key2" Ex.store1 = Returned Ex.store3) as H
    by (vm_compute; reflexivity).
  split; [exact H|].
  exact (Get_after_Delete "key2" Ex.store1 Ex.store3 H).
Defined.


Lemma addKeyToIndex_deleteKeyFromIndex_witness :
  deleteKeyFromIndex "key1" "foo"
    (addKeyToIndex "key1" "foo" {[ "foo" := {[ "key2" ]} ]})
  = {[ "foo" := {[ "key2" ]} ]}.
Proof.
  apply (proj1 (addKeyToIndex_deleteKeyFromIndex "key1" "foo"
                  {[ "foo" := {[ "key2" ]} ]}
                  (index_of_store1_no_empty))).
  vm_compute. by intros ?.
Defined.

Lemma bucket_keys_are_stored_witness :
  reachable Ex.store1 ∧
  in_bucket Ex.store1 "testIndexer" "foo" "key2" ∧
  ∃ v, items Ex.store1 !! "key2" = Some (Some v).
Proof.
  assert (in_bucket Ex.store1 "testIndexer" "foo" "key2") as H
    by (vm_compute; reflexivity).
  split; [exact store1_reachable|]. split; [exact H|].
  exact (bucket_keys_are_stored Ex.store1 "testIndexer" "foo" "key2"
           store1_reachable H).
Defined.




Lemma Update_returns_iff_indexable_witness :
  reachable Ex.store1 ∧
  ((∃ c', Update "key1" (Some "bar") Ex.store1 = Returned c') ↔
   ∀ name f, indexers (index Ex.store1) !! name = Some f →
             err_of f (Some "bar") = None).
Proof.
  split; [exact store1_reachable|].
  exact (Update_returns_iff_indexable "key1" (Some "bar") Ex.store1
           store1_reachable).
Defined.

Lemma Delete_returns_witness :
  reachable Ex.store1 ∧ ∃ c', Delete "key2" Ex.store1 = Returned c'.
Proof.
  split; [exact store1_reachable|].
  exact (Delete_returns "key2" Ex.store1 store1_reachable).
Defined.

Lemma Update_twice_witness :
  reachable Ex.store1 ∧
  Update "key1" (Some "bar") Ex.store1 = Returned Ex.store1_bar ∧
  Update "key1" (Some "bar") Ex.store1_bar = Returned Ex.store1_bar.
Proof.
  assert (Update "key1" (Some "bar") Ex.store1 = Returned Ex.store1_bar) as H
    by (vm_compute; reflexivity).
  split; [exact store1_reachable|]. split; [exact H|].
  exact (Update_twice "key1" (Some "bar") Ex.store1 Ex.store1_bar
           store1_reachable H).
Defined.

Lemma Add_then_Delete_witness :
  reachable Ex.store1 ∧
  items Ex.store1 !! "key1" = None ∧
  Add "key1" (Some "bar") Ex.store1 = Returned Ex.store1_bar ∧
  ∃ c'', Delete "key1" Ex.store1_bar = Returned c'' ∧
         items c'' = items Ex.store1 ∧
         indexers (index c'') = indexers (index Ex.store1) ∧
         ∀ name, index_of (indices (index c'')) name =
                 index_of (indices (index Ex.store1)) name.
Proof.
  assert (Add "key1" (Some "bar") Ex.store1 = Returned Ex.store1_bar) as H
    by (vm_compute; reflexivity).
  split; [exact store1_reachable|]. split; [reflexivity|]. split; [exact H|].
  exact (Add_then_Delete "key1" (Some "bar") Ex.store1 Ex.store1_bar
           store1_reachable eq_refl H).
Defined.

Lemma Replace_own_items_witness :
  reachable Ex.store1 ∧
  ∃ c', Replace (items Ex.store1) "7" Ex.store1 = Returned c' ∧
        items c' = items Ex.store1 ∧
        indexers (index c') = indexers (index Ex.store1) ∧
        ∀ name, index_of (indices (index c')) name =
                index_of (indices (index Ex.store1)) name.
Proof.
  split; [exact store1_reachable|].
  exact (Replace_own_items "7" Ex.store1 store1_reachable).
Defined.

Lemma registry_kept_witness :
  run Ex.ops1 Ex.store0 = Returned Ex.store1 ∧
  (∀ name f, GetIndexers Ex.store0 !! name = Some f →
             GetIndexers Ex.store1 !! name = Some f) ∧
  (Forall is_add_update_delete_replace Ex.ops1 →
   GetIndexers Ex.store1 = GetIndexers Ex.store0).
Proof.
  assert (run Ex.ops1 Ex.store0 = Returned Ex.store1) as H
    by (vm_compute; reflexivity).
  split; [exact H|].
  exact (registry_kept Ex.ops1 Ex.store0 Ex.store1 H).
Defined.

Lemma updateIndices_any_order_witness :
  reverse (map_to_list (indexers Ex.engine2))
    ≡ₚ map_to_list (indexers Ex.engine2) ∧
  match updateIndices (Some "foo") (Some "bar") "key2" Ex.engine2,
        updateIndices_loop (Some "foo") (Some "bar") "key2"
          (reverse (map_to_list (indexers Ex.engine2)))
          (Locals [] [] None, indices Ex.engine2) with
  | Returned i', Returned s =>
    indexers i' = indexers Ex.engine2 ∧ indices i' = s.2
  | Panicked _, Panicked _ => True
  | _, _ => False
  end.
Proof.
  assert (reverse (map_to_list (indexers Ex.engine2))
            ≡ₚ map_to_list (indexers Ex.engine2)) as H
    by apply reverse_Permutation.
  split; [exact H|].
  exact (updateIndices_any_order (Some "foo") (Some "bar") "key2" Ex.engine2
           (reverse (map_to_list (indexers Ex.engine2))) H).
Defined.

Lemma updateIndices_other_keys_witness :
  updateIndices (Some "foo") None "key2" (index Ex.store1_bar) =
    Returned {| indexers := indexers (index Ex.store1_bar);
                indices := {[ "testIndexer" := {[ "bar" := {[ "key1" ]} ]} ]} |} ∧
  ∀ name value key', key' ≠ "key2" →
    key' ∈ bucket (index_of {[ "testIndexer" := {[ "bar" := {[ "key1" ]} ]} ]}
                     name) value ↔
    key' ∈ bucket (index_of (indices (index Ex.store1_bar)) name) value.
Proof.
  assert (updateIndices (Some "foo") None "key2" (index Ex.store1_bar) =
    Returned {| indexers := indexers (index Ex.store1_bar);
                indices := {[ "testIndexer" := {[ "bar" := {[ "key1" ]} ]} ]} |})
    as H by (vm_compute; reflexivity).
  split; [exact H|].
  exact (updateIndices_other_keys (Some "foo") None "key2"
           (index Ex.store1_bar) _ H).
Defined.

(** The two visits of [engine2] return the same indices. *)
Example updateIndices_engine2_orders :
  ∃ i' s,
    updateIndices (Some "foo") (Some "bar") "key2" Ex.engine2 = Returned i' ∧
    updateIndices_loop (Some "foo") (Some "bar") "key2"
      (reverse (map_to_list (indexers Ex.engine2)))
      (Locals [] [] None, indices Ex.engine2) = Returned s ∧
    indices i' = s.2 ∧
    bucket (index_of s.2 "testIndexer") "bar" = {[ "key2" ]} ∧
    bucket (index_of s.2 "byConstant") "testIndex" = {[ "key2" ]}.
Proof.
  do 2 eexists. repeat split; vm_compute; reflexivity.
Qed.

End MoreExamples.
